(** * Delphi consensus engine

    A shallow embedding of the round-synthesis pipeline, the convergence
    tracker and the two retry wrappers of the Delphi agent:

    - [src/utils/openai-helpers.ts]      (module [OpenAIHelpers])
    - [src/agents/orchestrator.ts]       (module [Orchestrator])
    - [src/utils/convergence-tracker.ts] (module [ConvergenceTracker])
    - [src/main.ts]                      (module [DelphiAgent])
    - [src/tools/perplexity.ts]          (module [PerplexityTool])

    Conventions of the embedding.  JavaScript strings are modelled as
    ASCII strings; JavaScript numbers as exact rationals extended with
    [NaN] and the two infinities (no rounding, no negative zero); objects
    that are mutated or aliased live in an explicit heap; the two
    external services are arbitrary functions of the number of the call
    (and of the request), and an exception is a value of the result. *)

From Stdlib Require Import QArith Qcanon Ascii.
From stdpp Require Import gmap strings list sorting pretty.

(** ** JavaScript strings *)

Module JsString.

(** The ASCII part of the [\s] character class (and of [trim]). *)
Definition is_space (c : ascii) : bool :=
  let n := nat_of_ascii c in
  (Nat.eqb n 32 || (Nat.leb 9 n && Nat.leb n 13))%bool.

Definition lower_char (c : ascii) : ascii :=
  let n := nat_of_ascii c in
  if (Nat.leb 65 n && Nat.leb n 90)%bool then ascii_of_nat (n + 32) else c.

(** [s.toLowerCase()] *)
Fixpoint toLowerCase (s : string) : string :=
  match s with
  | EmptyString => EmptyString
  | String c s' => String (lower_char c) (toLowerCase s')
  end.

(** [s.includes(sub)] *)
Fixpoint includes (s sub : string) : bool :=
  (String.prefix sub s ||
   match s with
   | EmptyString => false
   | String _ s' => includes s' sub
   end)%bool.

Fixpoint trimStart (s : string) : string :=
  match s with
  | EmptyString => EmptyString
  | String c s' => if is_space c then trimStart s' else s
  end.

(** [s.trim() === ''] : the string holds white space only. *)
Definition trim_is_empty (s : string) : bool :=
  match trimStart s with
  | EmptyString => true
  | String _ _ => false
  end.

(** [s.split(/\s+/)]: the pieces between maximal runs of white space,
    with an empty piece before a leading run and after a trailing one.
    [cur] is the piece being read, [gap] tells that the previous
    character was white space. *)
Fixpoint split_ws_from (cur : string) (gap : bool) (s : string) : list string :=
  match s with
  | EmptyString => [cur]
  | String c s' =>
      if is_space c
      then (if gap then split_ws_from cur true s'
            else cur :: split_ws_from EmptyString true s')
      else split_ws_from (cur +:+ String c EmptyString) false s'
  end.

Definition split_ws (s : string) : list string :=
  split_ws_from EmptyString false s.

(** Truthiness of a possibly absent string ([undefined], [null] and
    [''] are falsy). *)
Definition truthy (o : option string) : bool :=
  match o with
  | Some (String _ _) => true
  | _ => false
  end.

(** [a || b] on possibly absent strings. *)
Definition or_else (a b : option string) : option string :=
  if truthy a then a else b.

(** [a === 'lit'] for a possibly absent string. *)
Definition is_str (a : option string) (lit : string) : bool :=
  match a with
  | Some s => bool_decide (s = lit)
  | None => false
  end.

End JsString.

(** ** JavaScript numbers *)

Module JsNumber.

Local Open Scope Qc_scope.

Inductive number :=
| Fin (q : Qc)
| PosInf
| NegInf
| NaN.

Definition qnat (n : nat) : Qc := Q2Qc (inject_Z (Z.of_nat n)).

Definition of_nat (n : nat) : number := Fin (qnat n).

(** A decimal literal [n / d]. *)
Definition lit (n : Z) (d : positive) : number := Fin (Q2Qc (n # d)).

Definition add (a b : number) : number :=
  match a, b with
  | NaN, _ | _, NaN => NaN
  | Fin x, Fin y => Fin (x + y)
  | PosInf, NegInf | NegInf, PosInf => NaN
  | PosInf, _ | _, PosInf => PosInf
  | NegInf, _ | _, NegInf => NegInf
  end.

Definition signed_inf (positive_sign : bool) : number :=
  if positive_sign then PosInf else NegInf.

Definition inf_times (positive_sign : bool) (y : Qc) : number :=
  if decide (y = 0) then NaN
  else if decide (0 < y) then signed_inf positive_sign
  else signed_inf (negb positive_sign).

Definition mul (a b : number) : number :=
  match a, b with
  | NaN, _ | _, NaN => NaN
  | Fin x, Fin y => Fin (x * y)
  | PosInf, Fin y | Fin y, PosInf => inf_times true y
  | NegInf, Fin y | Fin y, NegInf => inf_times false y
  | PosInf, PosInf | NegInf, NegInf => PosInf
  | PosInf, NegInf | NegInf, PosInf => NegInf
  end.

(** [a / b]: a zero divisor gives [NaN] for a zero dividend and an
    infinity otherwise. *)
Definition div (a b : number) : number :=
  match a, b with
  | NaN, _ | _, NaN => NaN
  | Fin x, Fin y =>
      if decide (y = 0)
      then (if decide (x = 0) then NaN
            else signed_inf (bool_decide (0 < x)))
      else Fin (x / y)
  | Fin _, (PosInf | NegInf) => Fin 0
  | PosInf, Fin y => signed_inf (negb (bool_decide (y < 0)))
  | NegInf, Fin y => signed_inf (bool_decide (y < 0))
  | (PosInf | NegInf), (PosInf | NegInf) => NaN
  end.

(** [a > b]; every comparison with [NaN] is false. *)
Definition gt (a b : number) : bool :=
  match a, b with
  | NaN, _ | _, NaN => false
  | Fin x, Fin y => bool_decide (y < x)
  | PosInf, PosInf | NegInf, _ => false
  | PosInf, _ => true
  | Fin _, NegInf => true
  | Fin _, PosInf => false
  end.

End JsNumber.

Import JsNumber.

(** ** Parsed JSON

    What [JSON.parse] returns for the text of the generation service.
    An object is its list of properties; reading a property takes the
    first binding of the name. *)

Module Json.

#[warnings="-register-all"]
Inductive json :=
| JNull
| JBool (b : bool)
| JNum (n : Qc)
| JStr (s : string)
| JArr (items : list json)
| JObj (props : list (string * json)).

(** [!!v] *)
Definition truthy (v : json) : bool :=
  match v with
  | JNull => false
  | JBool b => b
  | JNum n => negb (bool_decide (n = 0%Qc))
  | JStr s => negb (bool_decide (s = EmptyString))
  | JArr _ | JObj _ => true
  end.

Fixpoint assoc (k : string) (props : list (string * json)) : option json :=
  match props with
  | [] => None
  | (k', v) :: rest => if decide (k = k') then Some v else assoc k rest
  end.

(** [v.k] for a value [v] that is not [null]: [None] is [undefined].
    Only objects carry the properties read by this program. *)
Definition prop (v : json) (k : string) : option json :=
  match v with
  | JObj props => assoc k props
  | _ => None
  end.

(** [v === s] for a string [s] (also the test of [Array.includes]). *)
Definition is_string (s : string) (v : json) : bool :=
  match v with
  | JStr t => bool_decide (t = s)
  | _ => false
  end.

(** [ids.includes(s)] *)
Definition includes (ids : list json) (s : string) : bool :=
  existsb (is_string s) ids.

End Json.

Import Json.

(** ** Data model ([src/types/index.ts]) *)

Record Citation := {
  title : string;
  url : string;
  date : option string;
  relevance : option string
}.

(** A validated expert response.  The schema admits only a finite
    confidence (between 1 and 10), hence the rational. *)
Record ExpertResponse := {
  position : string;
  reasoning : string;
  confidence : Qc;
  sources : list Citation;
  expertise_area : string;
  agent_id : string
}.

(** The fields that [processClusters] copies from the parsed JSON
    ([theme], [positions], [expert_ids]) hold whatever the service sent. *)
Record ExpertCluster := {
  theme : json;
  positions : json;
  expert_ids : list json;
  confidence_range : Qc * Qc;
  supporting_sources : list Citation
}.

Record RoundSynthesis := {
  round_number : nat;
  clusters : list ExpertCluster;
  consensus_areas : list json;
  divergence_areas : list json;
  average_confidence : number;
  participation_count : nat;
  key_insights : list json
}.

(** ** ConvergenceTracker ([src/utils/convergence-tracker.ts]) *)

Module ConvergenceTracker.

(** [expertHistories] is a [Map]: its entries are kept in insertion
    order, one per key. *)
Record tracker := {
  roundHistory : list RoundSynthesis;
  expertHistories : list (string * list ExpertResponse)
}.

Definition empty : tracker :=
  {| roundHistory := []; expertHistories := [] |}.

(** [if (!m.has(k)) m.set(k, []); m.get(k).push(r)] *)
Fixpoint history_push (k : string) (r : ExpertResponse)
    (m : list (string * list ExpertResponse)) : list (string * list ExpertResponse) :=
  match m with
  | [] => [(k, [r])]
  | (k', h) :: m' =>
      if decide (k = k') then (k', h ++ [r]) :: m'
      else (k', h) :: history_push k r m'
  end.

Definition addRound (t : tracker) (synthesis : RoundSynthesis)
    (expertResponses : list ExpertResponse) : tracker :=
  {| roundHistory := roundHistory t ++ [synthesis];
     expertHistories :=
       foldl (λ m response, history_push (agent_id response) response m)
             (expertHistories t) expertResponses |}.

(** The states of a tracker in use: it starts empty and changes through
    [addRound] only. *)
Inductive reachable : tracker → Prop :=
| reachable_empty : reachable empty
| reachable_addRound t synthesis expertResponses :
    reachable t → reachable (addRound t synthesis expertResponses).

(** [new Set(p.split(/\s+/).filter(word => word.length > 3))] for an
    already lower-cased position [p]. *)
Definition key_terms (p : string) : gset string :=
  list_to_set (List.filter (λ word, Nat.ltb 3 (String.length word))
                           (JsString.split_ws p)).

(** [overlap.size / Math.max(lastWords.size, previousWords.size)] *)
Definition similarity (lastPosition previousPosition : string) : number :=
  let lastWords := key_terms lastPosition in
  let previousWords := key_terms previousPosition in
  let overlap := filter (λ word, word ∈ previousWords) lastWords in
  div (of_nat (size overlap))
      (of_nat (Nat.max (size lastWords) (size previousWords))).

(** The body of the [forEach] over the histories; the accumulator is
    [(totalExperts, stableExperts)]. *)
Definition stability_step (acc : nat * nat) (history : list ExpertResponse)
    : nat * nat :=
  if bool_decide (2 ≤ length history) then
    match history !! (length history - 1), history !! (length history - 2) with
    | Some last_r, Some prev_r =>
        let lastPosition := JsString.toLowerCase (position last_r) in
        let previousPosition := JsString.toLowerCase (position prev_r) in
        (S (fst acc),
         if gt (similarity lastPosition previousPosition) (lit 7 10)
         then S (snd acc) else snd acc)
    | _, _ => acc
    end
  else acc.

Definition calculatePositionStability (t : tracker) : number :=
  if bool_decide (length (roundHistory t) < 2) then Fin 1
  else
    let '(totalExperts, stableExperts) :=
      foldl stability_step (0, 0) (snd <$> expertHistories t) in
    if bool_decide (0 < totalExperts)
    then div (of_nat stableExperts) (of_nat totalExperts)
    else Fin 1.

(** [Math.max(...sizes)] under the guard [clusters.length > 0]. *)
Definition maxClusterSize (cs : list ExpertCluster) : nat :=
  max_list ((λ cluster, length (expert_ids cluster)) <$> cs).

Definition calculateConsensusClarity (t : tracker) : number :=
  match last (roundHistory t) with
  | None => Fin 0
  | Some currentRound =>
      let consensusRatio :=
        div (of_nat (length (consensus_areas currentRound)))
            (of_nat (Nat.max 1 (length (consensus_areas currentRound)
                                + length (divergence_areas currentRound)))) in
      let dominanceRatio :=
        div (of_nat (maxClusterSize (clusters currentRound)))
            (of_nat (Nat.max 1 (participation_count currentRound))) in
      let confidenceRatio := div (average_confidence currentRound) (of_nat 10) in
      add (add (mul consensusRatio (lit 4 10)) (mul dominanceRatio (lit 3 10)))
          (mul confidenceRatio (lit 3 10))
  end.

(** [{title, url, date: source.date || undefined,
      relevance: source.relevance || undefined}] *)
Definition to_citation (source : Citation) : Citation :=
  {| title := title source;
     url := url source;
     date := JsString.or_else (date source) None;
     relevance := JsString.or_else (relevance source) None |}.

(** [expertCitations]: the citations of the most recent response of
    every expert whose history is not empty, in the order of the map. *)
Definition latest_citations (t : tracker) : list (list Citation) :=
  omap (λ entry,
          (λ latestResponse, to_citation <$> sources latestResponse)
            <$> last (snd entry))
       (expertHistories t).

(** The index pairs visited by
    [for (i = 0; i < n; i++) for (j = i + 1; j < n; j++)]. *)
Definition index_pairs (n : nat) : list (nat * nat) :=
  i ← seq 0 n; (λ j, (i, j)) <$> seq (S i) (n - S i).

(** [new Set(cs.map(c => c.url))] *)
Definition url_set (cs : list Citation) : gset string :=
  list_to_set (url <$> cs).

(** [overlap.size > 0] for the two experts at [i] and [j]. *)
Definition pair_overlaps (expertCitations : list (list Citation))
    (ij : nat * nat) : bool :=
  match expertCitations !! ij.1, expertCitations !! ij.2 with
  | Some ci, Some cj =>
      bool_decide (0 < size (filter (λ u, u ∈ url_set cj) (url_set ci)))
  | _, _ => false
  end.

(** The [urlUsage] map that the method fills before its two loops is
    never read, and is left out. *)
Definition calculateCitationOverlap (t : tracker) : number :=
  if bool_decide (length (expertHistories t) = 0) then Fin 0
  else
    let expertCitations := latest_citations t in
    if bool_decide (length expertCitations < 2) then Fin 1
    else
      let visited := index_pairs (length expertCitations) in
      let totalPossiblePairs := length visited in
      let overlappingPairs :=
        length (List.filter (pair_overlaps expertCitations) visited) in
      if bool_decide (0 < totalPossiblePairs)
      then div (of_nat overlappingPairs) (of_nat totalPossiblePairs)
      else Fin 0.

End ConvergenceTracker.

(** ** safeChatCompletion ([src/utils/openai-helpers.ts]) *)

Module OpenAIHelpers.

Local Open Scope string_scope.

Definition loc := positive.

(** The values held by the properties of a request object.  Arrays and
    nested objects (the message list, the tool specifications) are
    references. *)
Inductive value :=
| VUndefined
| VNull
| VBool (b : bool)
| VNum (n : Qc)
| VStr (s : string)
| VRef (l : loc).

(** A request object: its own properties. *)
Abbreviation object := (gmap string value).

(** [o.k]: a missing property reads as [undefined]. *)
Definition get (o : object) (k : string) : value :=
  default VUndefined (o !! k).

Definition truthy (v : value) : bool :=
  match v with
  | VUndefined | VNull => false
  | VBool b => b
  | VNum n => negb (bool_decide (n = 0%Qc))
  | VStr s => negb (bool_decide (s = ""))
  | VRef _ => true
  end.

Definition is_undefined (v : value) : bool :=
  match v with
  | VUndefined => true
  | _ => false
  end.

(** [v !== 'gpt-4o'] *)
Definition differs_from (v : value) (s : string) : bool :=
  match v with
  | VStr t => negb (bool_decide (t = s))
  | _ => true
  end.

(** The answer of the service. *)
Record Message := { content : option string }.
Record Choice := { message : option Message }.
Record ChatCompletion := { choices : option (list Choice) }.

(** A thrown value, through what the [catch] block reads of it:
    [err.code], [err.error.code], [err.param], [err.error.param],
    [err.message] and [String(err)]. *)
Record ApiError := {
  code : option string;
  error_code : option string;
  param : option string;
  error_param : option string;
  err_message : option string;
  err_string : string
}.

(** [openai.chat.completions.create]: the answer to the [n]-th call may
    depend on [n] and on the request object as it is when passed. *)
Abbreviation service := (nat → object → ApiError + ChatCompletion).

Definition noChoices (res : ChatCompletion) : bool :=
  match choices res with
  | None | Some [] => true
  | Some (_ :: _) => false
  end.

(** [res?.choices?.[0]?.message] *)
Definition first_message (res : ChatCompletion) : option Message :=
  match choices res with
  | Some (choice :: _) => message choice
  | _ => None
  end.

(** [res?.choices?.[0]?.message?.content] *)
Definition first_content (res : ChatCompletion) : option string :=
  match first_message res with
  | Some m => content m
  | None => None
  end.

Definition noMessage (res : ChatCompletion) : bool :=
  match first_message res with
  | None => true
  | Some _ => false
  end.

Definition noContent (res : ChatCompletion) : bool :=
  match first_content res with
  | None => true
  | Some text =>
      (negb (JsString.truthy (Some text)) || JsString.trim_is_empty text)%bool
  end.

(** The response has a choice with a message of text that is not blank. *)
Definition usable (res : ChatCompletion) : bool :=
  negb (noChoices res || noMessage res || noContent res).

(** The state of a call: the heap of request objects, the variable [r],
    and the request objects passed to the service so far. *)
Record state := {
  heap : gmap loc object;
  r : loc;
  calls : list object
}.

Definition current (st : state) : object := default ∅ (heap st !! r st).

Definition fallback : string := "gpt-4o".

(** [runOnce] *)
Definition runOnce (create : service) (st : state)
    : (ApiError + ChatCompletion) * state :=
  let request := current st in
  let sent := {| heap := heap st; r := r st; calls := calls st ++ [request] |} in
  match create (length (calls st)) request with
  | inl err => (inl err, sent)
  | inr res =>
      if (noChoices res || noMessage res || noContent res)%bool then
        if (truthy (get request "model")
            && differs_from (get request "model") fallback)%bool
        then
          (* r.model = 'gpt-4o'; return await create(r) *)
          let request' := <["model" := VStr fallback]> request in
          (create (S (length (calls st))) request',
           {| heap := <[r st := request']> (heap st);
              r := r st;
              calls := calls st ++ [request; request'] |})
        else (inr res, sent)
      else (inr res, sent)
  end.

(** [r = fresh]: the variable is bound to a newly allocated object. *)
Definition rebind (st : state) (fresh_object : object) : state :=
  let l := fresh (dom (heap st)) in
  {| heap := <[l := fresh_object]> (heap st); r := l; calls := calls st |}.

(** [r.model = 'gpt-4o'] *)
Definition set_model (st : state) : state :=
  {| heap := <[r st := <["model" := VStr fallback]> (current st)]> (heap st);
     r := r st;
     calls := calls st |}.

(** The [catch] block: [Some] is [continue] with the new state, [None]
    is the final [throw err]. *)
Definition handle (err : ApiError) (st : state) : option state :=
  let code := JsString.or_else (code err) (error_code err) in
  let param := JsString.or_else (param err) (error_param err) in
  let msgFull :=
    default (err_string err) (JsString.or_else (err_message err) None) in
  let msg := JsString.toLowerCase msgFull in
  let request := current st in
  if ((JsString.is_str code "unsupported_value"
       || JsString.includes msg "unsupported"
       || JsString.includes msg "does not support")
      && (JsString.is_str param "temperature"
          || JsString.includes msg "temperature")
      && negb (is_undefined (get request "temperature")))%bool
  then Some (rebind st (delete "temperature" request))
  else if ((JsString.is_str code "unsupported_parameter"
            || JsString.includes msg "unsupported parameter")
           && (JsString.is_str param "max_tokens"
               || JsString.includes msg "max_tokens")
           && negb (is_undefined (get request "max_tokens")))%bool
  then Some (rebind st (<["max_completion_tokens" := get request "max_tokens"]>
                          (delete "max_tokens" request)))
  else if ((JsString.is_str code "unsupported_parameter"
            || JsString.includes msg "unsupported parameter")
           && (JsString.is_str param "max_completion_tokens"
               || JsString.includes msg "max_completion_tokens")
           && negb (is_undefined (get request "max_completion_tokens")))%bool
  then Some (rebind st (<["max_tokens" := get request "max_completion_tokens"]>
                          (delete "max_completion_tokens" request)))
  else if (JsString.is_str param "model"
           || JsString.is_str code "model_not_found"
           || (JsString.includes msg "model"
               && (JsString.includes msg "not found"
                   || JsString.includes msg "does not exist"
                   || JsString.includes msg "unknown"
                   || JsString.includes msg "unsupported")))%bool
  then Some (set_model st)
  else if (JsString.includes msg "responses api"
           || JsString.includes msg "use the responses"
           || JsString.includes msg "responses endpoint")%bool
  then Some (set_model st)
  else None.

(** How a call ends. *)
Inductive completion :=
| Returned (res : ChatCompletion)
| Rethrown (err : ApiError)
| Exhausted.

(** [for (let attempt = 0; attempt < 5; attempt++)], with [fuel] the
    attempts left. *)
Fixpoint attempts (create : service) (fuel : nat) (st : state)
    : completion * state :=
  match fuel with
  | 0 => (Exhausted, st)
  | S fuel' =>
      match runOnce create st with
      | (inr res, st') => (Returned res, st')
      | (inl err, st') =>
          match handle err st' with
          | Some st'' => attempts create fuel' st''
          | None => (Rethrown err, st')
          end
      end
  end.

(** [safeChatCompletion(openai, req)]: [req] is a reference to the
    caller's object, or [None] for [null] and [undefined];
    [{ ...(req || {}) }] allocates the clone. *)
Definition clone (h : gmap loc object) (req : option loc) : object :=
  match req with
  | Some l => default ∅ (h !! l)
  | None => ∅
  end.

Definition safeChatCompletion (create : service) (h : gmap loc object)
    (req : option loc) : completion * state :=
  let l := fresh (dom h) in
  attempts create 5 {| heap := <[l := clone h req]> h; r := l; calls := [] |}.

(** The request that produced the answer was on the fallback model, or
    named no model at all. *)
Definition on_fallback (sent : object) : Prop :=
  truthy (get sent "model") = false ∨ get sent "model" = VStr fallback.

(** Every object of the caller's heap [h] is still there, and [r] is not
    one of them. *)
Definition framed (h : gmap loc object) (st : state) : Prop :=
  h ⊆ heap st ∧ h !! r st = None.

End OpenAIHelpers.

(** ** PerplexityTool ([src/tools/perplexity.ts]) *)

Module PerplexityTool.

Local Open Scope string_scope.

(** The [response] of an axios error: the HTTP status and the [error]
    property of the body. *)
Record AxiosResponse := {
  status : Z;
  data_error : option string
}.

(** What reaches a [catch]: an axios error (with [response] when the
    server answered) or a plain [Error] (without). *)
Record CaughtError := {
  message : option string;
  response : option AxiosResponse
}.

(** [`${error.response?.data?.error || error.message}`] *)
Definition detail (error : CaughtError) : string :=
  default "undefined"
    (JsString.or_else (response error ≫= data_error) (message error)).

(** The rejection handler of the response interceptor installed by the
    constructor: it throws a new [Error], which has a message and no
    [response]. *)
Definition interceptor (error : CaughtError) : CaughtError :=
  {| message := Some ("Perplexity API failed: " +:+ detail error);
     response := None |}.

(** [this.client.post(...)] for a transport that answers the [n]-th
    request with [transport n]. *)
Definition client_post {A} (transport : nat → CaughtError + A) (n : nat)
    : CaughtError + A :=
  match transport n with
  | inl error => inl (interceptor error)
  | inr data => inr data
  end.

Inductive outcome (A : Type) :=
| Returned (result : A)
| Thrown (text : string).

Arguments Returned {A} result.
Arguments Thrown {A} text.

(** What a call of [search] did besides returning: the number of
    requests posted and the pauses, in milliseconds. *)
Record effects := {
  requests : nat;
  pauses : list Z
}.

Definition maxRetries : nat := 3.

Definition isTimeout (error : CaughtError) : bool :=
  match message error with
  | Some m => (JsString.truthy (Some m) && JsString.includes m "timeout")%bool
  | None => false
  end.

Definition is5xx (error : CaughtError) : bool :=
  match response error with
  | Some r => (Z.leb 500 (status r) && Z.ltb (status r) 600)%bool
  | None => false
  end.

(** [lastError?.message || lastError] in the text of the last [throw]. *)
Definition last_text (lastError : option CaughtError) : string :=
  match lastError with
  | Some error =>
      default "Error" (JsString.or_else (message error) None)
  | None => "null"
  end.

(** The [while (attempt < maxRetries)] loop; [fuel] is
    [maxRetries - attempt]. *)
Fixpoint search_loop {A} (post : nat → CaughtError + A)
    (fuel attempt : nat) (lastError : option CaughtError) (slept : list Z)
    : outcome A * effects :=
  match fuel with
  | 0 =>
      (Thrown ("Perplexity API failed after 3 attempts: "
               +:+ last_text lastError),
       {| requests := attempt; pauses := slept |})
  | S fuel' =>
      match post attempt with
      | inr data =>
          (Returned data, {| requests := S attempt; pauses := slept |})
      | inl error =>
          if ((isTimeout error || is5xx error)
              && Nat.ltb attempt (maxRetries - 1))%bool
          then
            let backoff := (1000 * 2 ^ Z.of_nat attempt)%Z in
            search_loop post fuel' (S attempt) (Some error) (slept ++ [backoff])
          else
            (Thrown ("Perplexity API failed: " +:+ detail error),
             {| requests := S attempt; pauses := slept |})
      end
  end.

(** The loop of [search] over any way of posting. *)
Definition search_with {A} (post : nat → CaughtError + A) : outcome A * effects :=
  search_loop post maxRetries 0 None [].

(** [search]: the requests go through the client and its interceptor. *)
Definition search {A} (transport : nat → CaughtError + A) : outcome A * effects :=
  search_with (client_post transport).

End PerplexityTool.

(** ** OrchestratorAgent ([src/agents/orchestrator.ts]) *)

Module Orchestrator.

Local Open Scope Qc_scope.

(** The object parsed from the text of the generation service, read
    through the three properties that [synthesizeRound] uses.  A property
    that is missing (or falsy) is [None]; one that is present is taken to
    be an array, as the prompt asks.  The elements of [clusters] are
    arbitrary JSON values. *)
Record SynthesisData := {
  sd_clusters : option (list json);
  sd_consensus_areas : option (list json);
  sd_divergence_areas : option (list json);
  sd_key_insights : option (list json)
}.

(** What one pass of the [forEach] body of [processClusters] does: it
    returns early, pushes a cluster, or faults on a [null] element
    (reading a property of [null] throws a [TypeError]). *)
Inductive cluster_step :=
| Skipped
| Pushed (cluster : ExpertCluster)
| Faulted.

Definition qmin (a b : Qc) : Qc := if decide (b < a) then b else a.
Definition qmax (a b : Qc) : Qc := if decide (a < b) then b else a.

(** [Math.min(...xs)] and [Math.max(...xs)] for a list with first
    element [x]. *)
Definition min_of (x : Qc) (xs : list Qc) : Qc := foldl qmin x xs.
Definition max_of (x : Qc) (xs : list Qc) : Qc := foldl qmax x xs.

(** The body of the inner [forEach]: push the source unless a source of
    the same URL is already there. *)
Definition add_source (supportingSources : list Citation) (source : Citation)
    : list Citation :=
  if existsb (λ existing, bool_decide (url existing = url source))
             supportingSources
  then supportingSources
  else supportingSources ++
       [{| title := title source;
           url := url source;
           date := date source;
           relevance := JsString.or_else (relevance source)
                          (Some "Supporting evidence"%string) |}].

Definition processCluster (rawCluster : json)
    (expertResponses : list ExpertResponse) : cluster_step :=
  match rawCluster with
  | JNull => Faulted
  | _ =>
      match prop rawCluster "theme", prop rawCluster "expert_ids" with
      | Some rawTheme, Some (JArr rawIds) =>
          if Json.truthy rawTheme then
            let clusterExperts :=
              List.filter (λ response, Json.includes rawIds (agent_id response))
                          expertResponses in
            match clusterExperts with
            | [] => Skipped
            | first :: others =>
                let confidenceScores := confidence <$> others in
                let supportingSources :=
                  foldl add_source [] (clusterExperts ≫= sources) in
                Pushed
                  {| theme := rawTheme;
                     positions :=
                       match prop rawCluster "positions" with
                       | Some p =>
                           if Json.truthy p then p
                           else JArr ((λ expert, JStr (position expert))
                                        <$> clusterExperts)
                       | None => JArr ((λ expert, JStr (position expert))
                                         <$> clusterExperts)
                       end;
                     expert_ids := rawIds;
                     confidence_range :=
                       (min_of (confidence first) confidenceScores,
                        max_of (confidence first) confidenceScores);
                     supporting_sources := take 10 supportingSources |}
            end
          else Skipped
      | _, _ => Skipped
      end
  end.

(** [None] when an element faults; the exception leaves the loop. *)
Fixpoint processClusters (rawClusters : list json)
    (expertResponses : list ExpertResponse) : option (list ExpertCluster) :=
  match rawClusters with
  | [] => Some []
  | rawCluster :: rest =>
      match processCluster rawCluster expertResponses with
      | Faulted => None
      | Skipped => processClusters rest expertResponses
      | Pushed cluster =>
          (λ clusters, cluster :: clusters)
            <$> processClusters rest expertResponses
      end
  end.

(** [confidenceScores.reduce((sum, score) => sum + score, 0) /
     confidenceScores.length] *)
Definition averageConfidence (expertResponses : list ExpertResponse) : number :=
  let confidenceScores := confidence <$> expertResponses in
  div (Fin (foldl Qcplus 0 confidenceScores))
      (of_nat (length confidenceScores)).

(** [synthesizeRound] from the parsed answer of the service on; [None]
    stands for the error thrown when [processClusters] faults. *)
Definition synthesizeRound (roundNumber : nat)
    (expertResponses : list ExpertResponse) (synthesisData : SynthesisData)
    : option RoundSynthesis :=
  processed ← processClusters (default [] (sd_clusters synthesisData))
                              expertResponses;
  Some {| round_number := roundNumber;
          clusters := processed;
          consensus_areas := default [] (sd_consensus_areas synthesisData);
          divergence_areas := default [] (sd_divergence_areas synthesisData);
          average_confidence := averageConfidence expertResponses;
          participation_count := length expertResponses;
          key_insights := default [] (sd_key_insights synthesisData) |}.

(** The comparator handed to [sort]: negative when [a] goes first. *)
Definition compare_clusters (a b : ExpertCluster) : Qc :=
  let sizeA := length (expert_ids a) in
  let sizeB := length (expert_ids b) in
  if decide (sizeA ≠ sizeB) then qnat sizeB - qnat sizeA
  else
    let avgConfidenceA := ((confidence_range a).1 + (confidence_range a).2) / 2 in
    let avgConfidenceB := ((confidence_range b).1 + (confidence_range b).2) / 2 in
    avgConfidenceB - avgConfidenceA.

(** [Array.prototype.sort] is stable: an element goes before the first
    one that the comparator does not put ahead of it. *)
Fixpoint sort_insert (x : ExpertCluster) (sorted : list ExpertCluster)
    : list ExpertCluster :=
  match sorted with
  | [] => [x]
  | y :: rest =>
      if decide (compare_clusters x y ≤ 0) then x :: y :: rest
      else y :: sort_insert x rest
  end.

Fixpoint sort_clusters (cs : list ExpertCluster) : list ExpertCluster :=
  match cs with
  | [] => []
  | x :: rest => sort_insert x (sort_clusters rest)
  end.

(** A synthesis object lives in the heap: the run, the tracker and the
    report all hold references to it. *)
Definition loc := positive.

(** [identifyDominantClusters(synthesis)]: [sort] works in place, so the
    [clusters] array of the object at [synthesis] is overwritten with
    the sorted one; the themes of the first three are returned.  [None]
    for a dangling reference. *)
Definition identifyDominantClusters (heap : gmap loc RoundSynthesis)
    (synthesis : loc) : option (list json * gmap loc RoundSynthesis) :=
  s ← heap !! synthesis;
  match clusters s with
  | [] => Some ([], heap)
  | _ =>
      let sortedClusters := sort_clusters (clusters s) in
      let s' := {| round_number := round_number s;
                   clusters := sortedClusters;
                   consensus_areas := consensus_areas s;
                   divergence_areas := divergence_areas s;
                   average_confidence := average_confidence s;
                   participation_count := participation_count s;
                   key_insights := key_insights s |} in
      Some (theme <$> take 3 sortedClusters, <[synthesis := s']> heap)
  end.

End Orchestrator.

(** ** DelphiAgent ([src/main.ts]) *)

Module DelphiAgent.

Record ContrarianResponse := {
  critique : string;
  alternative_framework : string;
  blind_spots : list string;
  contrarian_id : string
}.

Record FailedExpert := {
  role : string;
  error : string
}.

(** An entry of [dissenting_views]. *)
Record DissentingView := {
  dv_position : string;
  dv_expert_ids : list string;
  dv_reasoning : string;
  dv_sources : list Citation
}.

(** An element of [roundResults]. *)
Record RoundResult := {
  expertResponses : list ExpertResponse;
  synthesis : RoundSynthesis;
  contrarianResponses : list ContrarianResponse;
  failedExperts : list FailedExpert
}.

(** The report, without the two fields that come from elsewhere (the
    generated consensus summary and the convergence metrics) and without
    the time stamp. *)
Record DelphiReport := {
  expert_positions : list ExpertResponse;
  contrarian_observations : list ContrarianResponse;
  dissenting_views : list DissentingView;
  round_history : list RoundSynthesis;
  failed_experts : list FailedExpert
}.

(** [clusters.reduce((largest, current) =>
      current.expert_ids.length > largest.expert_ids.length
        ? current : largest, clusters[0])] *)
Definition reduce_largest (first : ExpertCluster) (cs : list ExpertCluster)
    : ExpertCluster :=
  foldl (λ largest current,
           if Nat.ltb (length (expert_ids largest)) (length (expert_ids current))
           then current else largest)
        first cs.

(** The [expert_ids] of [largestCluster], which starts as
    [{ expert_ids: [] }]. *)
Definition largestCluster_ids (s : RoundSynthesis) : list json :=
  match clusters s with
  | [] => []
  | first :: _ => expert_ids (reduce_largest first (clusters s))
  end.

Definition to_view (expert : ExpertResponse) : DissentingView :=
  {| dv_position := position expert;
     dv_expert_ids := [agent_id expert];
     dv_reasoning := reasoning expert;
     dv_sources := sources expert |}.

Definition identifyDissentingViews (s : RoundSynthesis)
    (responses : list ExpertResponse) : list DissentingView :=
  let dissentingExperts :=
    List.filter (λ response,
                   negb (Json.includes (largestCluster_ids s) (agent_id response)))
                responses in
  if bool_decide (length dissentingExperts = 0) then []
  else to_view <$> dissentingExperts.

(** [generateFinalReportWithSupport]; [None] when [roundResults] is
    empty (reading [finalRound.synthesis] then throws). *)
Definition generateFinalReportWithSupport (roundResults : list RoundResult)
    : option DelphiReport :=
  finalRound ← last roundResults;
  let allExpertResponses := roundResults ≫= expertResponses in
  let allContrarianResponses := roundResults ≫= contrarianResponses in
  let failed := roundResults ≫= failedExperts in
  let dissentingViews :=
    identifyDissentingViews (synthesis finalRound) allExpertResponses in
  Some {| expert_positions := expertResponses finalRound;
          contrarian_observations := allContrarianResponses;
          dissenting_views := dissentingViews;
          round_history := synthesis <$> roundResults;
          failed_experts := failed |}.

End DelphiAgent.

(** ** The synthesis objects of a run

    [runDelphiProcess] and [executeRoundWithValidation] pass one and the
    same synthesis object to [identifyDominantClusters], to the
    contrarians, to [roundResults] and to the tracker's [roundHistory].
    The run is modelled by the heap of these objects and the two lists
    of references. *)

Module Run.

Import Orchestrator.

Record state := {
  heap : gmap loc RoundSynthesis;
  roundResults : list loc;
  roundHistory : list loc
}.

Definition initial : state :=
  {| heap := ∅; roundResults := []; roundHistory := [] |}.

(** One round from the moment [synthesizeRound] has returned the object
    [produced]: the object is allocated, [identifyDominantClusters] is
    called on it (phase 3), and the loop pushes the reference on
    [roundResults] and, through [addRound], on [roundHistory]. *)
Definition round_step (st : state) (produced : RoundSynthesis) : state :=
  let synthesis := fresh (dom (heap st)) in
  let allocated := <[synthesis := produced]> (heap st) in
  let after_targeting :=
    match identifyDominantClusters allocated synthesis with
    | Some (_, h) => h
    | None => allocated
    end in
  {| heap := after_targeting;
     roundResults := roundResults st ++ [synthesis];
     roundHistory := roundHistory st ++ [synthesis] |}.

(** What the history holds: the objects behind its references. *)
Definition history_view (st : state) : list (option RoundSynthesis) :=
  (λ l, heap st !! l) <$> roundHistory st.

(** The themes of the clusters of each synthesis of the history, in the
    order of the [clusters] arrays. *)
Definition themes_of (s : RoundSynthesis) : list json :=
  theme <$> clusters s.

Definition history_themes (st : state) : list (option (list json)) :=
  (λ o : option RoundSynthesis, themes_of <$> o) <$> history_view st.

End Run.

(** ** The metrics in the words of the specification *)

Module Spec.

(** "largest_cluster_expert_count": the number of expert ids of a
    largest cluster, and 0 when the round has no cluster. *)
Definition largest_cluster_expert_count (cs : list ExpertCluster) (m : nat) : Prop :=
  (cs = [] ∧ m = 0) ∨
  ((∃ c, c ∈ cs ∧ length (expert_ids c) = m) ∧
   (∀ c, c ∈ cs → length (expert_ids c) ≤ m)).

(** "0.4 * (consensus_areas_count / max(1, consensus_areas_count +
    divergence_areas_count)) + 0.3 * (largest_cluster_expert_count /
    max(1, participation_count)) + 0.3 * (average_confidence / 10)" *)
Definition consensus_clarity
    (consensus_areas_count divergence_areas_count : nat)
    (largest_cluster_count participation : nat)
    (average : number) : number :=
  add (add (mul (lit 4 10)
                (div (of_nat consensus_areas_count)
                     (of_nat (Nat.max 1 (consensus_areas_count
                                         + divergence_areas_count)))))
           (mul (lit 3 10)
                (div (of_nat largest_cluster_count)
                     (of_nat (Nat.max 1 participation)))))
      (mul (lit 3 10) (div average (of_nat 10))).

(** "whether their URL sets intersect at all" *)
Definition share_url (a b : list Citation) : bool :=
  existsb (λ u, bool_decide (u ∈ url <$> b)) (url <$> a).

(** "every unordered pair of experts", experts being numbered from 0. *)
Definition unordered_pairs (n : nat) : list (nat * nat) :=
  List.filter (λ ij, Nat.ltb ij.1 ij.2)
              (i ← seq 0 n; (λ j, (i, j)) <$> seq 0 n).

Definition pair_shares (cs : list (list Citation)) (ij : nat * nat) : bool :=
  match cs !! ij.1, cs !! ij.2 with
  | Some a, Some b => share_url a b
  | _, _ => false
  end.

(** "overlapping-pair-count / total-pair-count" over the latest
    citations [cs] of the experts. *)
Definition citation_overlap (cs : list (list Citation)) : number :=
  div (of_nat (length (List.filter (pair_shares cs)
                                   (unordered_pairs (length cs)))))
      (of_nat (length (unordered_pairs (length cs)))).

(** "the largest cluster": a cluster with the most expert ids, the
    first of them in the order of the round's cluster list. *)
Definition first_largest (cs : list ExpertCluster) (c : ExpertCluster) : Prop :=
  ∃ i, cs !! i = Some c ∧
       (∀ j c', cs !! j = Some c' →
                length (expert_ids c') ≤ length (expert_ids c)) ∧
       (∀ j c', j < i → cs !! j = Some c' →
                length (expert_ids c') < length (expert_ids c)).

End Spec.

(** ** Sample data used by the examples *)

Module Sample.

Local Open Scope string_scope.

Definition cite (u : string) : Citation :=
  {| title := "Source"; url := u; date := None; relevance := None |}.

Definition response (id pos : string) (conf : Z) (urls : list string)
    : ExpertResponse :=
  {| position := pos;
     reasoning := "Reasoning of at least fifty characters, as the schema asks.";
     confidence := Q2Qc (inject_Z conf);
     sources := cite <$> urls;
     expertise_area := "Policy Researcher";
     agent_id := id |}.

Definition cluster (name : string) (ids : list string) (lo hi : Z)
    : ExpertCluster :=
  {| theme := JStr name;
     positions := JArr [];
     expert_ids := JStr <$> ids;
     confidence_range := (Q2Qc (inject_Z lo), Q2Qc (inject_Z hi));
     supporting_sources := [] |}.

Definition synthesis (n : nat) (cs : list ExpertCluster)
    (consensus divergence : list string) (avg : number) (count : nat)
    : RoundSynthesis :=
  {| round_number := n;
     clusters := cs;
     consensus_areas := JStr <$> consensus;
     divergence_areas := JStr <$> divergence;
     average_confidence := avg;
     participation_count := count;
     key_insights := [] |}.

(** A tracker after one round in which the experts [a] and [b] cited
    the given URLs. *)
Definition two_experts (urls_a urls_b : list string)
    : ConvergenceTracker.tracker :=
  ConvergenceTracker.addRound ConvergenceTracker.empty
    (synthesis 1 [] [] [] (of_nat 7) 2)
    [response "a" "A position of some length" 7 urls_a;
     response "b" "Another position of some length" 7 urls_b].

(** A tracker after one round in which every expert failed. *)
Definition all_failed : ConvergenceTracker.tracker :=
  ConvergenceTracker.addRound ConvergenceTracker.empty
    (synthesis 1 [] [] [] NaN 0) [].

(** A tracker after two rounds in which the only expert stated [first]
    and then [second]. *)
Definition two_rounds (first second : string) : ConvergenceTracker.tracker :=
  ConvergenceTracker.addRound
    (ConvergenceTracker.addRound ConvergenceTracker.empty
       (synthesis 1 [] [] [] (of_nat 7) 1)
       [response "a" first 7 ["https://x.org/1"]])
    (synthesis 2 [] [] [] (of_nat 7) 1)
    [response "a" second 7 ["https://x.org/1"]].

Definition round (rs : list ExpertResponse) (cs : list ExpertCluster)
    : DelphiAgent.RoundResult :=
  {| DelphiAgent.expertResponses := rs;
     DelphiAgent.synthesis := synthesis 1 cs [] [] (of_nat 7) (length rs);
     DelphiAgent.contrarianResponses := [];
     DelphiAgent.failedExperts := [] |}.

(** Two rounds with the experts [a] and [b]; the final synthesis has the
    clusters [cs]. *)
Definition two_round_run (cs : list ExpertCluster)
    : list DelphiAgent.RoundResult :=
  [round [response "a" "First position of a" 7 ["https://x.org/1"];
          response "b" "First position of b" 7 ["https://x.org/2"]] [];
   round [response "a" "Final position of a" 7 ["https://x.org/1"];
          response "b" "Final position of b" 7 ["https://x.org/2"]] cs].

Definition no_data : Orchestrator.SynthesisData :=
  {| Orchestrator.sd_clusters := None;
     Orchestrator.sd_consensus_areas := None;
     Orchestrator.sd_divergence_areas := None;
     Orchestrator.sd_key_insights := None |}.

(** A raw cluster as the service sends it. *)
Definition raw_cluster (name : string) (ids : list string) : json :=
  JObj [("theme", JStr name); ("expert_ids", JArr (JStr <$> ids))].

(** A synthesis whose smaller cluster comes first. *)
Definition small_first : RoundSynthesis :=
  synthesis 1 [cluster "minority" ["c"] 6 6; cluster "majority" ["a"; "b"] 7 9]
            [] [] (of_nat 7) 3.

(** A server that answers the first request with HTTP 503 and every
    later one with a result. *)
Definition unavailable_once (n : nat) : PerplexityTool.CaughtError + string :=
  match n with
  | 0 => inl {| PerplexityTool.message :=
                  Some "Request failed with status code 503";
                PerplexityTool.response :=
                  Some {| PerplexityTool.status := 503;
                          PerplexityTool.data_error := None |} |}
  | _ => inr "answer"
  end.

(** A server that never answers within the 30 seconds. *)
Definition never_in_time (n : nat) : PerplexityTool.CaughtError + string :=
  inl {| PerplexityTool.message := Some "timeout of 30000ms exceeded";
         PerplexityTool.response := None |}.

(** The caller's request: a model, a temperature, a token limit and a
    reference to the message list. *)
Definition request (model : string) : gmap string OpenAIHelpers.value :=
  {[ "model" := OpenAIHelpers.VStr model;
     "messages" := OpenAIHelpers.VRef 2%positive;
     "temperature" := OpenAIHelpers.VNum (Q2Qc (3 # 10));
     "max_tokens" := OpenAIHelpers.VNum (Q2Qc 2000) ]}.

Definition caller_heap (model : string)
    : gmap positive (gmap string OpenAIHelpers.value) :=
  {[ 1%positive := request model; 2%positive := ∅ ]}.

Definition empty_answer : OpenAIHelpers.ChatCompletion :=
  {| OpenAIHelpers.choices := Some [] |}.

Definition answer (text : string) : OpenAIHelpers.ChatCompletion :=
  {| OpenAIHelpers.choices :=
       Some [{| OpenAIHelpers.message :=
                  Some {| OpenAIHelpers.content := Some text |} |}] |}.

(** A service that always answers with no choice. *)
Definition always_empty (n : nat) (o : gmap string OpenAIHelpers.value)
    : OpenAIHelpers.ApiError + OpenAIHelpers.ChatCompletion :=
  inr empty_answer.

Definition api_error (c p m : string) : OpenAIHelpers.ApiError :=
  {| OpenAIHelpers.code := Some c;
     OpenAIHelpers.error_code := None;
     OpenAIHelpers.param := Some p;
     OpenAIHelpers.error_param := None;
     OpenAIHelpers.err_message := Some m;
     OpenAIHelpers.err_string := "Error: " +:+ m |}.

(** A service that rejects [temperature], then [max_tokens], then any
    model but the fallback, and answers once the request suits it. *)
Definition picky (n : nat) (o : gmap string OpenAIHelpers.value)
    : OpenAIHelpers.ApiError + OpenAIHelpers.ChatCompletion :=
  if negb (OpenAIHelpers.is_undefined (OpenAIHelpers.get o "temperature"))
  then inl (api_error "unsupported_value" "temperature"
              "Unsupported value: 'temperature' does not support 0.3 with this model.")
  else if negb (OpenAIHelpers.is_undefined (OpenAIHelpers.get o "max_tokens"))
  then inl (api_error "unsupported_parameter" "max_tokens"
              "Unsupported parameter: 'max_tokens'. Use 'max_completion_tokens' instead.")
  else if OpenAIHelpers.differs_from (OpenAIHelpers.get o "model") "gpt-4o"
  then inl (api_error "model_not_found" "model" "The model does not exist.")
  else inr (answer "done").

Definition five : list string := ["e1"; "e2"; "e3"; "e4"; "e5"].

(** Five experts, one cluster with all of them, no divergence area,
    average confidence 8; with and without a consensus area. *)
Definition unanimous (consensus : list string) : RoundSynthesis :=
  synthesis 1 [cluster "all" five 7 9] consensus [] (of_nat 8) 5.

End Sample.

(** ** ConvergenceTracker: the remaining metrics and the exit tests *)

Module TrackerMetrics.

Import ConvergenceTracker.

Local Open Scope Qc_scope.

(** [expertHistories.get(k)] *)
Fixpoint history_of (k : string) (m : list (string * list ExpertResponse))
    : option (list ExpertResponse) :=
  match m with
  | [] => None
  | (k', h) :: m' => if decide (k = k') then Some h else history_of k m'
  end.

(** [(cluster.confidence_range[0] + cluster.confidence_range[1]) / 2] *)
Definition midpoint (cluster : ExpertCluster) : Qc :=
  ((confidence_range cluster).1 + (confidence_range cluster).2) / 2.

(** [scores.reduce((sum, score) => sum + score, 0) / scores.length] *)
Definition mean (scores : list Qc) : Qc :=
  foldl Qcplus 0 scores / qnat (length scores).

(** [scores.reduce((sum, score) => sum + Math.pow(score - mean, 2), 0)
     / scores.length] *)
Definition variance (scores : list Qc) : Qc :=
  foldl (λ sum score, sum + (score - mean scores) * (score - mean scores))
        0 scores
  / qnat (length scores).

(** A value [Math.sqrt(v)], kept as its radicand [v]. *)
Record root := Sqrt { radicand : Qc }.

(** [Math.sqrt(v) < c] for a positive bound [c], decided on the
    squares. *)
Definition root_below (s : root) (c : Qc) : bool :=
  bool_decide (radicand s < c * c).

(** [calculateConfidenceSpread]; the two early [return 0] are
    [Math.sqrt(0)]. *)
Definition calculateConfidenceSpread (t : tracker) : root :=
  match last (roundHistory t) with
  | None => Sqrt 0
  | Some currentRound =>
      let confidenceScores := midpoint <$> clusters currentRound in
      match confidenceScores with
      | [] => Sqrt 0
      | _ => Sqrt (variance confidenceScores)
      end
  end.

Inductive termination :=
| consensus_reached
| max_rounds
| divergence_stable.

(** [a < b] *)
Definition lt (a b : number) : bool := gt b a.

Definition determineTerminationReason (t : tracker) : termination :=
  let position_stability := calculatePositionStability t in
  let consensus_clarity := calculateConsensusClarity t in
  let confidence_spread := calculateConfidenceSpread t in
  if (gt consensus_clarity (lit 8 10) && gt position_stability (lit 8 10)
      && root_below confidence_spread (Q2Qc (15 # 10)))%bool
  then consensus_reached
  else if (gt position_stability (lit 9 10)
           && lt consensus_clarity (lit 5 10))%bool
  then divergence_stable
  else max_rounds.

Record ConvergenceMetrics := {
  position_stability : number;
  confidence_spread : root;
  consensus_clarity : number;
  citation_overlap : number;
  rounds_completed : nat;
  termination_reason : termination
}.

(** [calculateMetrics]; [None] is the error 'No rounds to analyze'. *)
Definition calculateMetrics (t : tracker) : option ConvergenceMetrics :=
  match roundHistory t with
  | [] => None
  | _ =>
      Some {| position_stability := calculatePositionStability t;
              confidence_spread := calculateConfidenceSpread t;
              consensus_clarity := calculateConsensusClarity t;
              citation_overlap := calculateCitationOverlap t;
              rounds_completed := length (roundHistory t);
              termination_reason := determineTerminationReason t |}
  end.

(** [hasConverged]; after the guard on the number of rounds
    [calculateMetrics] cannot throw. *)
Definition hasConverged (t : tracker) : bool :=
  if bool_decide (length (roundHistory t) < 2)%nat then false
  else
    match calculateMetrics t with
    | None => false
    | Some metrics =>
        (gt (position_stability metrics) (lit 8 10)
         && gt (consensus_clarity metrics) (lit 75 100)
         && root_below (confidence_spread metrics) (Q2Qc 2))%bool
    end.


End TrackerMetrics.

(** ** The order of the dominant clusters *)

Module Ranking.

Local Open Scope Qc_scope.


End Ranking.

(** ** sanitizeCitations ([src/utils/citation-sanitize.ts]) *)

Module CitationSanitize.

Local Open Scope string_scope.

(** [`Source ${index + 1}`] *)
Definition source_title (index : nat) : string :=
  "Source " +:+ pretty (index + 1)%nat.

(** [typeof v === 'string' ? v : fallback], with [None] for the
    fallback. *)
Definition string_of (v : option json) : option string :=
  match v with
  | Some (JStr s) => Some s
  | _ => None
  end.

(** The callback of [map]; [None] is the [TypeError] of reading a
    property of [null]. *)
Definition sanitizeCitation (index : nat) (citation : json) : option Citation :=
  match citation with
  | JNull => None
  | JStr u =>
      Some {| title := source_title index;
              url := u;
              date := None;
              relevance := Some "High" |}
  | _ =>
      Some {| title := default (source_title index)
                               (string_of (prop citation "title"));
              url := default "" (string_of (prop citation "url"));
              date := string_of (prop citation "date");
              relevance := string_of (prop citation "relevance") |}
  end.

Fixpoint sanitize_from (index : nat) (citations : list json)
    : option (list Citation) :=
  match citations with
  | [] => Some []
  | citation :: rest =>
      match sanitizeCitation index citation with
      | None => None
      | Some c => (λ cs, c :: cs) <$> sanitize_from (S index) rest
      end
  end.

(** [sanitizeCitations(citations)]: the argument is an array, or [None]
    for [undefined] and [null]. *)
Definition sanitizeCitations (citations : option (list json))
    : option (list Citation) :=
  sanitize_from 0 (default [] citations).

(** A citation as a JSON object, the way [JSON.stringify] writes it: the
    optional properties are left out when absent. *)
Definition to_json (c : Citation) : json :=
  JObj ([("title", JStr (title c)); ("url", JStr (url c))]
        ++ match date c with
           | Some d => [("date", JStr d)]
           | None => []
           end
        ++ match relevance c with
           | Some r => [("relevance", JStr r)]
           | None => []
           end).

End CitationSanitize.

(** ** PerplexityTool: the result of a search *)

Module SearchResults.

Import CitationSanitize.

Local Open Scope string_scope.

(** An element of [data.search_results], through the properties read;
    they are taken to be strings when present. *)
Record RawResult := {
  raw_title : option string;
  raw_url : option string;
  raw_date : option string;
  raw_summary : option string
}.

(** The body of a successful answer, through what [search] reads of it:
    [data.choices?.[0]?.message?.content], [data.citations] and
    [data.search_results]. *)
Record ResponseData := {
  data_content : option string;
  data_citations : option (list json);
  data_search_results : option (list RawResult)
}.

Record SearchResult := {
  result_title : string;
  result_url : string;
  result_date : option string;
  summary : string;
  relevance_score : Qc
}.

Record SearchOutput := {
  content : string;
  citations : list Citation;
  searchResults : list SearchResult
}.

(** [s.substring(0, n)] *)
Fixpoint substring0 (n : nat) (s : string) : string :=
  match n, s with
  | S n', String c s' => String c (substring0 n' s')
  | _, _ => EmptyString
  end.

Definition from_raw (content : string) (result : RawResult) : SearchResult :=
  {| result_title :=
       default "Untitled" (JsString.or_else (raw_title result) None);
     result_url := default "" (JsString.or_else (raw_url result) None);
     result_date := raw_date result;
     summary :=
       default (substring0 200 content +:+ "...")
               (JsString.or_else (raw_summary result) None);
     relevance_score := Q2Qc (8 # 10) |}.

Definition from_citation (index : nat) (citation : Citation) : SearchResult :=
  {| result_title := title citation;
     result_url := url citation;
     result_date := None;
     summary := "Reference material " +:+ pretty (index + 1)%nat;
     relevance_score := Q2Qc (7 # 10) |}.

(** The statements of [search] between the answer of the server and the
    [return]; [None] when [sanitizeCitations] throws. *)
Definition assemble (data : ResponseData) : option SearchOutput :=
  let content := default "" (JsString.or_else (data_content data) None) in
  citations ← sanitizeCitations (data_citations data);
  let searchResults :=
    from_raw content <$> default [] (data_search_results data) in
  Some {| content := content;
          citations := citations;
          searchResults :=
            match searchResults, citations with
            | [], _ :: _ => imap from_citation citations
            | _, _ => searchResults
            end |}.

End SearchResults.

(** ** safeChatCompletion: what the catch block looks for *)

Module ErrorClasses.

Import OpenAIHelpers.

Local Open Scope string_scope.

(** The properties of the request that the wrapper may change. *)
Definition adjustable : list string :=
  ["model"; "temperature"; "max_tokens"; "max_completion_tokens"].



(** The two complaints about the name of the token limit. *)
Definition wants_completion_tokens : ApiError :=
  {| code := Some "unsupported_parameter";
     error_code := None;
     param := Some "max_tokens";
     error_param := None;
     err_message :=
       Some "Unsupported parameter: 'max_tokens' is not supported with this model. Use 'max_completion_tokens' instead.";
     err_string := "Error: Unsupported parameter: 'max_tokens'" |}.

Definition wants_max_tokens : ApiError :=
  {| code := Some "unsupported_parameter";
     error_code := None;
     param := Some "max_completion_tokens";
     error_param := None;
     err_message :=
       Some "Unsupported parameter: 'max_completion_tokens' is not supported with this model. Use 'max_tokens' instead.";
     err_string := "Error: Unsupported parameter: 'max_completion_tokens'" |}.

(** A request [sent] differs from the request [given] at most in the
    adjustable properties, and its model is the one given or the
    fallback. *)
Definition agrees (given sent : object) : Prop :=
  (∀ k, k ∉ adjustable → sent !! k = given !! k) ∧
  (get sent "model" = get given "model" ∨ get sent "model" = VStr fallback).

(** The state keeps to the request given: the current request and all
    the requests sent agree with it. *)
Definition keeps (given : object) (st : state) : Prop :=
  agrees given (current st) ∧ Forall (agrees given) (calls st).

End ErrorClasses.

(** ** The JSON text in an answer, and the names of the report files *)

Module TextTools.

Local Open Scope string_scope.

(** The character [c] occurs in [s]. *)
Fixpoint occurs (c : ascii) (s : string) : bool :=
  match s with
  | EmptyString => false
  | String a s' => (bool_decide (a = c) || occurs c s')%bool
  end.

(** The rest of [s] from the first [c] on. *)
Fixpoint from_first (c : ascii) (s : string) : option string :=
  match s with
  | EmptyString => None
  | String a s' => if bool_decide (a = c) then Some s else from_first c s'
  end.

(** The beginning of [s] up to and including the last [c]. *)
Fixpoint upto_last (c : ascii) (s : string) : option string :=
  match s with
  | EmptyString => None
  | String a s' =>
      match upto_last c s' with
      | Some m => Some (String a m)
      | None => if bool_decide (a = c) then Some (String a EmptyString) else None
      end
  end.

(** [text.match(re)?.[0] ?? text] for the patterns [/\{[\s\S]*\}/] and
    [/\[.*\]/s]: the match runs from the first opening character to the
    last closing one. *)
Definition extract_between (opening closing : ascii) (text : string) : string :=
  match from_first opening text with
  | Some rest =>
      match upto_last closing rest with
      | Some matched => matched
      | None => text
      end
  | None => text
  end.

(** [jsonMatch ? jsonMatch[0] : responseContent] in [synthesizeRound],
    the agents and the summary; the same with brackets in
    [generatePersonas]. *)
Definition json_object_text : string → string := extract_between "{" "}".
Definition json_array_text : string → string := extract_between "[" "]".

(** [s.slice(0, n)] *)
Fixpoint slice0 (n : nat) (s : string) : string :=
  match n, s with
  | S n', String c s' => String c (slice0 n' s')
  | _, _ => EmptyString
  end.

Fixpoint map_chars (f : ascii → ascii) (s : string) : string :=
  match s with
  | EmptyString => EmptyString
  | String c s' => String (f c) (map_chars f s')
  end.

Fixpoint keep_chars (keep : ascii → bool) (s : string) : string :=
  match s with
  | EmptyString => EmptyString
  | String c s' =>
      if keep c then String c (keep_chars keep s') else keep_chars keep s'
  end.

(** A character of [[a-z0-9]]. *)
Definition is_lower_alnum (c : ascii) : bool :=
  let n := nat_of_ascii c in
  ((Nat.leb 97 n && Nat.leb n 122) || (Nat.leb 48 n && Nat.leb n 57))%bool.

(** [s.replace(/\s+/g, '-')]; [gap] tells that the previous character
    was white space. *)
Fixpoint hyphenate (gap : bool) (s : string) : string :=
  match s with
  | EmptyString => EmptyString
  | String c s' =>
      if JsString.is_space c
      then (if gap then hyphenate true s' else String "-" (hyphenate true s'))
      else String c (hyphenate false s')
  end.

(** [question.toLowerCase().replace(/[^a-z0-9\s]/g, '')
      .replace(/\s+/g, '-').slice(0, 50)] *)
Definition sanitizedQuestion (question : string) : string :=
  slice0 50
    (hyphenate false
       (keep_chars (λ c, (is_lower_alnum c || JsString.is_space c)%bool)
                   (JsString.toLowerCase question))).

(** [iso.slice(0, 19).replace(/[:.]/g, '-')] for the ISO text [iso] of
    the current time. *)
Definition timestamp (iso : string) : string :=
  map_chars (λ c, if (bool_decide (c = ":"%char) || bool_decide (c = "."%char))%bool
                  then "-"%char else c)
            (slice0 19 iso).

(** [getReportFilename] *)
Definition getReportFilename (iso question : string) : string :=
  "delphi-report-" +:+ timestamp iso +:+ "-" +:+ sanitizedQuestion question
  +:+ ".md".

(** [s.replace(pattern, replacement)] for a pattern that is a string:
    the first occurrence is replaced. *)
Fixpoint replace_first (pattern replacement s : string) : string :=
  if String.prefix pattern s
  then replacement +:+ String.substring (String.length pattern)
                         (String.length s - String.length pattern) s
  else match s with
       | EmptyString => EmptyString
       | String c s' => String c (replace_first pattern replacement s')
       end.

(** The two paths written by [saveReport]: [join('output', filename)]
    and [filepath.replace('.md', '.json')]. *)
Definition report_path (iso question : string) : string :=
  "output/" +:+ getReportFilename iso question.

Definition json_path (iso question : string) : string :=
  replace_first ".md" ".json" (report_path iso question).

End TextTools.

(** ** The loop of rounds ([runDelphiProcess]) *)

Module RoundLoop.

Import ConvergenceTracker TrackerMetrics DelphiAgent.

(** [Math.min(2, Math.ceil(expertCount / 3))] for a count that is a
    natural number. *)
Definition contrarianCount (expertCount : nat) : nat :=
  Nat.min 2 ((expertCount + 2) / 3).

(** [setMaxRounds]: [Math.max(1, Math.min(5, maxRounds))] for an
    integer. *)
Definition setMaxRounds (maxRounds : Z) : nat :=
  Z.to_nat (Z.max 1 (Z.min 5 maxRounds)).





End RoundLoop.

(** ** Sample runs used by the further examples *)

Module Scenario.

Local Open Scope string_scope.

(** One expert who repeats a position over two rounds; the second
    synthesis is [final]. *)
Definition steady (final : RoundSynthesis) : ConvergenceTracker.tracker :=
  ConvergenceTracker.addRound
    (ConvergenceTracker.addRound ConvergenceTracker.empty
       (Sample.synthesis 1 [] [] [] (of_nat 7) 1)
       [Sample.response "a" "Regulation should arrive early" 7 ["https://x.org/1"]])
    final
    [Sample.response "a" "Regulation should arrive early" 9 ["https://x.org/1"]].

(** The expert forms the only cluster and a consensus area is listed. *)
Definition agreed : RoundSynthesis :=
  Sample.synthesis 2 [Sample.cluster "all" ["a"] 9 9] ["early regulation"] []
                   (of_nat 9) 1.

(** No cluster and no consensus area, one divergence area. *)
Definition split : RoundSynthesis :=
  Sample.synthesis 2 [] [] ["timing"] (of_nat 7) 1.


End Scenario.

(** * Properties *)

(** Closed equations between numbers: the two sides are evaluated, and
    equal rationals are equal whatever the proofs of canonicity. *)
Ltac number_compute :=
  vm_compute;
  first [ reflexivity | f_equal; apply Qc_is_canon; reflexivity ].

Module NumberFacts.

Local Open Scope Qc_scope.

Lemma mul_comm a b : mul a b = mul b a.
Proof.
  destruct a, b; simpl; try reflexivity.
  f_equal. apply Qcmult_comm.
Qed.

Lemma qnat_inj n m : qnat n = qnat m → n = m.
Proof.
  unfold qnat. intros H. apply Q2Qc_eq_iff in H.
  unfold Qeq in H. simpl in H. lia.
Qed.

Lemma qnat_zero n : qnat n = 0 ↔ n = 0%nat.
Proof.
  split; [intros H; apply (qnat_inj n 0%nat H) | intros ->; reflexivity].
Qed.

Lemma div_of_nat_self n : n ≠ 0%nat → div (of_nat n) (of_nat n) = Fin 1.
Proof.
  intros Hn. unfold div, of_nat.
  destruct (decide (qnat n = 0)) as [E | E].
  - apply qnat_zero in E. contradiction.
  - f_equal. unfold Qcdiv. apply Qcmult_inv_r. exact E.
Qed.

Lemma div_zero_of_nat n : n ≠ 0%nat → div (of_nat 0) (of_nat n) = Fin 0.
Proof.
  intros Hn. unfold div, of_nat.
  destruct (decide (qnat n = 0)) as [E | E].
  - apply qnat_zero in E. contradiction.
  - f_equal. unfold Qcdiv. apply Qcmult_0_l.
Qed.

Lemma div_zero_zero : div (of_nat 0) (of_nat 0) = NaN.
Proof. reflexivity. Qed.

End NumberFacts.

Module StringFacts.

Import JsString.

Local Open Scope string_scope.

Example split_ws_runs :
  split_ws " two  words " = [""; "two"; "words"; ""].
Proof. reflexivity. Qed.

Example split_ws_empty : split_ws "" = [""].
Proof. reflexivity. Qed.

Example toLowerCase_mixed : toLowerCase "GPT-4o Model" = "gpt-4o model".
Proof. reflexivity. Qed.

Example includes_inside :
  includes "unsupported parameter: 'max_tokens'" "max_tokens" = true ∧
  includes "max_token" "max_tokens" = false.
Proof. split; reflexivity. Qed.

Example trim_blank : trim_is_empty "  " = true ∧ trim_is_empty " x " = false.
Proof. split; reflexivity. Qed.

End StringFacts.

Module TrackerFacts.

Import ConvergenceTracker.

(** [addRound] appends: the rounds recorded before are all still there,
    in place. *)
Lemma addRound_keeps_history t synthesis expertResponses :
  roundHistory t `prefix_of` roundHistory (addRound t synthesis expertResponses).
Proof. by exists [synthesis]. Qed.

Lemma maxClusterSize_spec cs :
  Spec.largest_cluster_expert_count cs (maxClusterSize cs).
Proof.
  unfold maxClusterSize.
  induction cs as [| c cs IH]; [left; done |].
  right. rewrite fmap_cons. simpl. destruct IH as [[-> _] | [[c' [Hin Hlen]] Hmax]].
  - simpl. split.
    + exists c. split; [apply list_elem_of_here | lia].
    + intros c0 Hc0. apply list_elem_of_singleton in Hc0 as ->. lia.
  - split.
    + destruct (Nat.max_spec (length (expert_ids c))
                  (max_list ((λ cluster, length (expert_ids cluster)) <$> cs)))
        as [[_ ->] | [_ ->]].
      * exists c'. split; [by apply list_elem_of_further | exact Hlen].
      * exists c. split; [apply list_elem_of_here | reflexivity].
    + intros c0 Hc0. apply elem_of_cons in Hc0 as [-> | Hc0]; [lia |].
      specialize (Hmax c0 Hc0). lia.
Qed.

Lemma clarity_unfold t cur :
  last (roundHistory t) = Some cur →
  calculateConsensusClarity t =
    Spec.consensus_clarity (length (consensus_areas cur))
      (length (divergence_areas cur)) (maxClusterSize (clusters cur))
      (participation_count cur) (average_confidence cur).
Proof.
  intros Hlast. unfold calculateConsensusClarity, Spec.consensus_clarity.
  rewrite Hlast.
  by rewrite !(NumberFacts.mul_comm (lit _ 10)).
Qed.

(** C8 (as amended).  On the latest round the clarity is the weighted
    sum [0.4 * (c / max(1, c + d)) + 0.3 * (largest / max(1, p)) +
    0.3 * (avg / 10)]; for five participants, one cluster holding five
    expert ids, no divergence area, at least one consensus area and an
    average confidence of 8 it is 0.94. *)
Theorem C8_consensus_clarity t cur
    (Hlast : last (roundHistory t) = Some cur) :
  (∃ m, Spec.largest_cluster_expert_count (clusters cur) m ∧
        calculateConsensusClarity t =
          Spec.consensus_clarity (length (consensus_areas cur))
            (length (divergence_areas cur)) m
            (participation_count cur) (average_confidence cur)) ∧
  (∀ c, participation_count cur = 5 →
        clusters cur = [c] →
        length (expert_ids c) = 5 →
        divergence_areas cur = [] →
        consensus_areas cur ≠ [] →
        average_confidence cur = of_nat 8 →
        calculateConsensusClarity t = lit 94 100).
Proof.
  split.
  - exists (maxClusterSize (clusters cur)).
    split; [apply maxClusterSize_spec | by apply clarity_unfold].
  - intros c Hp Hcs Hc Hd Hne Havg.
    rewrite (clarity_unfold t cur Hlast), Hp, Hcs, Hd, Havg.
    unfold maxClusterSize. simpl. rewrite Hc.
    unfold Spec.consensus_clarity.
    destruct (consensus_areas cur) as [| a l]; [done |].
    replace (Nat.max 1 (length (a :: l) + 0)) with (length (a :: l))
      by (simpl; lia).
    rewrite NumberFacts.div_of_nat_self by done.
    number_compute.
Qed.

(** The scenario of C8 on a concrete tracker. *)
Lemma C8_consensus_clarity_witness :
  calculateConsensusClarity
    (addRound empty (Sample.unanimous ["the panel agrees"%string]) [])
  = lit 94 100.
Proof.
  refine (proj2 (C8_consensus_clarity _ (Sample.unanimous ["the panel agrees"%string]) _) _ _ _ _ _ _ _);
    try reflexivity.
  discriminate.
Defined.

(** C8 as stated fails: nothing in the scenario makes the consensus
    ratio 1.  With no consensus area listed the value is 0.54. *)
Lemma C8_counterexample :
  let cur := Sample.unanimous [] in
  participation_count cur = 5 ∧
  (∃ c, clusters cur = [c] ∧ length (expert_ids c) = 5) ∧
  divergence_areas cur = [] ∧
  average_confidence cur = of_nat 8 ∧
  calculateConsensusClarity (addRound empty cur []) = lit 54 100 ∧
  calculateConsensusClarity (addRound empty cur []) ≠ lit 94 100.
Proof.
  simpl. split; [reflexivity |].
  split; [eexists; split; reflexivity |].
  split; [reflexivity |]. split; [reflexivity |].
  assert (E : calculateConsensusClarity (addRound empty (Sample.unanimous []) [])
              = lit 54 100).
  { number_compute. }
  split; [exact E |].
  rewrite E. intros H.
  apply (f_equal (λ x, match x with Fin q => Qnum (this q) | _ => 0%Z end)) in H.
  vm_compute in H. discriminate H.
Qed.

(** *** Citation overlap *)

Lemma filter_lt_seq i n :
  i < n → List.filter (λ j, Nat.ltb i j) (seq 0 n) = seq (S i) (n - S i).
Proof.
  intros Hi.
  replace n with (S i + (n - S i)) at 1 by lia.
  rewrite seq_app, List.filter_app. simpl plus.
  replace (List.filter (λ j, Nat.ltb i j) (seq 0 (S i))) with (@nil nat).
  - simpl. apply forallb_filter_id. apply forallb_forall.
    intros j Hj%in_seq. apply Nat.ltb_lt. lia.
  - symmetry. generalize (seq 0 (S i)) (λ j, proj1 (in_seq (S i) 0 j)).
    intros l Hl. induction l as [| j l IH]; [done |].
    simpl. replace (Nat.ltb i j) with false.
    + apply IH. intros k Hk. apply Hl. by right.
    + symmetry. apply Nat.ltb_ge. specialize (Hl j (or_introl eq_refl)). lia.
Qed.

Lemma index_pairs_unordered n : index_pairs n = Spec.unordered_pairs n.
Proof.
  unfold index_pairs, Spec.unordered_pairs.
  assert (G : ∀ l, (∀ i, i ∈ l → i < n) →
    (i ← l; (λ j, (i, j)) <$> seq (S i) (n - S i)) =
    List.filter (λ ij : nat * nat, Nat.ltb ij.1 ij.2)
                (i ← l; (λ j, (i, j)) <$> seq 0 n)).
  { induction l as [| i l IH]; intros Hl; [done |].
    rewrite !bind_cons, List.filter_app. f_equal.
    - rewrite <- (filter_lt_seq i n) by (apply Hl; left).
      generalize (seq 0 n). intros js. induction js as [| j js IHj]; [done |].
      rewrite fmap_cons. cbn [List.filter fst snd].
      destruct (Nat.ltb i j); [rewrite fmap_cons |]; by rewrite IHj.
    - apply IH. intros k Hk. apply Hl. by right. }
  apply G. intros i Hi%list_elem_of_In%in_seq. lia.
Qed.

Lemma length_pairs_from a k :
  2 * length (i ← seq a k; (λ j, (i, j)) <$> seq (S i) (a + k - S i))
  = k * (k - 1).
Proof.
  revert a. induction k as [| k IH]; intros a; [done |].
  simpl seq. rewrite bind_cons, length_app, length_fmap, length_seq.
  replace (a + S k) with (S a + k) by lia.
  specialize (IH (S a)). destruct k; simpl in *; lia.
Qed.

(** The number of unordered pairs among [n] experts is [n (n - 1) / 2]. *)
Lemma length_index_pairs n : 2 * length (index_pairs n) = n * (n - 1).
Proof. apply (length_pairs_from 0 n). Qed.

Lemma pair_overlaps_shares cs ij :
  pair_overlaps cs ij = Spec.pair_shares cs ij.
Proof.
  unfold pair_overlaps, Spec.pair_shares.
  destruct (cs !! ij.1) as [a |]; [| done].
  destruct (cs !! ij.2) as [b |]; [| done].
  unfold Spec.share_url, url_set.
  apply eq_true_iff_eq. rewrite bool_decide_eq_true, existsb_exists.
  split.
  - intros [u Hu]%size_pos_elem_of.
    apply elem_of_filter in Hu as [Hb Ha].
    apply elem_of_list_to_set in Ha, Hb.
    exists u. split; [by apply list_elem_of_In | by apply bool_decide_eq_true].
  - intros [u [Ha%list_elem_of_In Hb%bool_decide_eq_true]].
    assert (Hin : u ∈ filter (λ u, u ∈ (list_to_set (url <$> b) : gset string))
                           (list_to_set (url <$> a) : gset string)).
    { apply elem_of_filter. split; by apply elem_of_list_to_set. }
    destruct (decide (size (filter (λ u, u ∈ (list_to_set (url <$> b) : gset string))
                           (list_to_set (url <$> a) : gset string)) = 0)) as [E | E];
      [| lia].
    apply size_empty_iff in E. apply E in Hin. by apply not_elem_of_empty in Hin.
Qed.

Lemma overlap_unfold t :
  2 ≤ length (latest_citations t) →
  calculateCitationOverlap t = Spec.citation_overlap (latest_citations t).
Proof.
  intros Hn. unfold calculateCitationOverlap, Spec.citation_overlap.
  assert (Hne : length (expertHistories t) ≠ 0).
  { intros E. apply nil_length_inv in E.
    unfold latest_citations in Hn. rewrite E in Hn. simpl in Hn. lia. }
  rewrite bool_decide_eq_false_2 by done.
  rewrite bool_decide_eq_false_2 by lia.
  pose proof (length_index_pairs (length (latest_citations t))) as Hlen.
  rewrite bool_decide_eq_true_2 by nia.
  rewrite <- index_pairs_unordered.
  do 3 f_equal. apply filter_ext. intros ij. apply pair_overlaps_shares.
Qed.

Lemma history_push_nonempty k r m :
  Forall (λ entry : string * list ExpertResponse, entry.2 ≠ []) m →
  Forall (λ entry : string * list ExpertResponse, entry.2 ≠ [])
         (history_push k r m).
Proof.
  induction m as [| [k' h] m IH]; intros Hall; simpl.
  - by repeat constructor.
  - inversion_clear Hall as [| ? ? Hh Hm]. case_decide.
    + constructor; [| done]. simpl. by destruct h.
    + constructor; [done | by apply IH].
Qed.

(** In a tracker in use every expert of the map has a response. *)
Lemma reachable_nonempty t :
  reachable t →
  Forall (λ entry : string * list ExpertResponse, entry.2 ≠ [])
         (expertHistories t).
Proof.
  induction 1 as [| t s rs _ IH]; simpl; [constructor |].
  revert IH. generalize (expertHistories t).
  induction rs as [| r rs IHrs]; intros m Hm; simpl; [done |].
  apply IHrs. by apply history_push_nonempty.
Qed.

Lemma latest_citations_length t :
  Forall (λ entry : string * list ExpertResponse, entry.2 ≠ [])
         (expertHistories t) →
  length (latest_citations t) = length (expertHistories t).
Proof.
  unfold latest_citations. generalize (expertHistories t).
  induction 1 as [| [k h] m Hh _ IH]; [done |].
  simpl in *. destruct (last h) eqn:E.
  - simpl. f_equal. exact IH.
  - apply last_None in E. by subst.
Qed.

(** The cases of [calculateCitationOverlap], for any state. *)
Lemma citation_overlap_cases t :
  (length (expertHistories t) = 0 → calculateCitationOverlap t = Fin 0) ∧
  (length (expertHistories t) ≠ 0 → length (latest_citations t) < 2 →
   calculateCitationOverlap t = Fin 1) ∧
  (∀ a b, latest_citations t = [a; b] →
   calculateCitationOverlap t = if Spec.share_url a b then Fin 1 else Fin 0).
Proof.
  split; [| split].
  - intros E. unfold calculateCitationOverlap.
    by rewrite bool_decide_eq_true_2.
  - intros Hne Hlt. unfold calculateCitationOverlap.
    rewrite bool_decide_eq_false_2 by done.
    by rewrite bool_decide_eq_true_2.
  - intros a b Hab. rewrite overlap_unfold by (rewrite Hab; simpl; lia).
    rewrite Hab. unfold Spec.citation_overlap. simpl.
    unfold Spec.pair_shares. simpl.
    destruct (Spec.share_url a b); number_compute.
Qed.

(** C6 (as amended).  In a tracker in use, with two or more experts the
    overlap is the number of unordered pairs of experts whose latest URL
    sets intersect over the number of all unordered pairs; a pair counts
    as one whatever the size of the intersection, so two experts give 1
    when they share a URL and 0 when they share none.  With exactly one
    expert the value is 1, and with no expert at all the leading guard
    returns 0. *)
Theorem C6_citation_overlap t (Hreach : reachable t) :
  (length (expertHistories t) = 0 → calculateCitationOverlap t = Fin 0) ∧
  (length (expertHistories t) = 1 → calculateCitationOverlap t = Fin 1) ∧
  (2 ≤ length (expertHistories t) →
   calculateCitationOverlap t = Spec.citation_overlap (latest_citations t)) ∧
  (∀ a b, latest_citations t = [a; b] →
   calculateCitationOverlap t = if Spec.share_url a b then Fin 1 else Fin 0).
Proof.
  pose proof (latest_citations_length t (reachable_nonempty t Hreach)) as Hlen.
  destruct (citation_overlap_cases t) as (Hzero & Hone & Htwo).
  split; [exact Hzero |]. split; [| split; [| exact Htwo]].
  - intros E. apply Hone; lia.
  - intros Hn. apply overlap_unfold. lia.
Qed.

(** The two scenarios of the specification: A = {url1, url2} against
    B = {url3}, and against B = {url1, url4}. *)
Lemma C6_citation_overlap_witness :
  calculateCitationOverlap
    (Sample.two_experts ["https://x.org/1"; "https://x.org/2"]%string
                        ["https://x.org/3"]%string) = Fin 0 ∧
  calculateCitationOverlap
    (Sample.two_experts ["https://x.org/1"; "https://x.org/2"]%string
                        ["https://x.org/1"; "https://x.org/4"]%string) = Fin 1.
Proof.
  split.
  - exact (proj2 (proj2 (proj2 (C6_citation_overlap
             (Sample.two_experts ["https://x.org/1"; "https://x.org/2"]%string
                                 ["https://x.org/3"]%string)
             (reachable_addRound _ _ _ reachable_empty)))) _ _ eq_refl).
  - exact (proj2 (proj2 (proj2 (C6_citation_overlap
             (Sample.two_experts ["https://x.org/1"; "https://x.org/2"]%string
                                 ["https://x.org/1"; "https://x.org/4"]%string)
             (reachable_addRound _ _ _ reachable_empty)))) _ _ eq_refl).
Defined.

(** C6 as stated fails for zero experts: before any round, and after a
    round in which every expert failed, no expert has a history, and
    the overlap is 0, not 1. *)
Lemma C6_counterexample :
  reachable empty ∧
  length (expertHistories empty) < 2 ∧
  calculateCitationOverlap empty ≠ Fin 1 ∧
  reachable Sample.all_failed ∧
  length (expertHistories Sample.all_failed) < 2 ∧
  calculateCitationOverlap Sample.all_failed = Fin 0 ∧
  calculateCitationOverlap Sample.all_failed ≠ Fin 1.
Proof.
  split; [constructor |].
  split; [simpl; lia |]. split; [discriminate |].
  split; [apply reachable_addRound; constructor |].
  split; [simpl; lia |]. split; [reflexivity | discriminate].
Qed.

(** *** Position stability *)

Lemma stability_step_short acc h :
  length h < 2 → stability_step acc h = acc.
Proof.
  intros Hlen. unfold stability_step.
  by rewrite bool_decide_eq_false_2 by lia.
Qed.

Lemma stability_step_last_two acc l p q :
  stability_step acc (l ++ [p; q]) =
    (S acc.1,
     if gt (similarity (JsString.toLowerCase (position q))
                       (JsString.toLowerCase (position p))) (lit 7 10)
     then S acc.2 else acc.2).
Proof.
  unfold stability_step. rewrite length_app. simpl length.
  rewrite bool_decide_eq_true_2 by lia.
  rewrite !lookup_app_r by lia.
  replace (length l + 2 - 1 - length l) with 1 by lia.
  replace (length l + 2 - 2 - length l) with 0 by lia.
  reflexivity.
Qed.

Lemma history_shape (h : list ExpertResponse) :
  length h < 2 ∨ ∃ l p q, h = l ++ [p; q].
Proof.
  destruct (decide (length h < 2)) as [Hlt | Hge]; [by left | right].
  destruct (rev h) as [| q [| p l]] eqn:E.
  - apply (f_equal length) in E. rewrite length_rev in E. simpl in E. lia.
  - apply (f_equal length) in E. rewrite length_rev in E. simpl in E. lia.
  - exists (rev l), p, q. rewrite <- (rev_involutive h), E. simpl.
    by rewrite <- !app_assoc.
Qed.

Lemma similarity_same p :
  key_terms p ≠ ∅ → similarity p p = Fin 1.
Proof.
  intros Hne. unfold similarity.
  replace (filter (λ word, word ∈ key_terms p) (key_terms p)) with (key_terms p).
  - rewrite Nat.max_id. apply NumberFacts.div_of_nat_self.
    intros E. apply size_empty_iff in E. by apply leibniz_equiv in E.
  - apply set_eq. intros w. rewrite elem_of_filter. tauto.
Qed.

Lemma similarity_disjoint a b :
  key_terms a ## key_terms b → gt (similarity a b) (lit 7 10) = false.
Proof.
  intros Hdisj. unfold similarity.
  replace (filter (λ word, word ∈ key_terms b) (key_terms a))
    with (∅ : gset string).
  - rewrite size_empty.
    destruct (Nat.max (size (key_terms a)) (size (key_terms b))) as [| m].
    + reflexivity.
    + by rewrite NumberFacts.div_zero_of_nat.
  - symmetry. apply set_eq. intros w. rewrite elem_of_filter.
    split; [intros [Hb Ha]; exfalso; by apply (Hdisj w) | intros H].
    by apply not_elem_of_empty in H.
Qed.

(** When every expert with two responses counts as stable, the two
    counters stay equal. *)
Lemma fold_all_stable hs n :
  (∀ h l p q, h ∈ hs → h = l ++ [p; q] →
     gt (similarity (JsString.toLowerCase (position q))
                    (JsString.toLowerCase (position p))) (lit 7 10) = true) →
  ∃ k, foldl stability_step (n, n) hs = (k, k).
Proof.
  revert n. induction hs as [| h hs IH]; intros n Hall; [by exists n |].
  simpl. destruct (history_shape h) as [Hs | (l & p & q & ->)].
  - rewrite stability_step_short by done.
    apply IH. intros h' l p q Hin. apply Hall. by right.
  - rewrite stability_step_last_two. simpl.
    rewrite (Hall _ l p q (list_elem_of_here _ _) eq_refl).
    apply IH. intros h' l' p' q' Hin. apply Hall. by right.
Qed.

(** When no expert with two responses counts as stable, the second
    counter stays 0 and the first one counts the experts compared. *)
Lemma fold_none_stable hs n :
  (∀ h l p q, h ∈ hs → h = l ++ [p; q] →
     gt (similarity (JsString.toLowerCase (position q))
                    (JsString.toLowerCase (position p))) (lit 7 10) = false) →
  ∃ k, foldl stability_step (n, 0) hs = (k, 0) ∧ n ≤ k ∧
       ((∃ h, h ∈ hs ∧ 2 ≤ length h) → n < k).
Proof.
  revert n. induction hs as [| h hs IH]; intros n Hall.
  - exists n. repeat split; [lia |]. intros (h & Hin & _).
    by apply elem_of_nil in Hin.
  - simpl. destruct (history_shape h) as [Hs | (l & p & q & ->)].
    + rewrite stability_step_short by done.
      destruct (IH n) as (k & Hk & Hle & Hlt).
      { intros h' l p q Hin. apply Hall. by right. }
      exists k. repeat split; [done | done |].
      intros (h' & [-> | Hin]%elem_of_cons & Hlen); [lia |].
      apply Hlt. by exists h'.
    + rewrite stability_step_last_two. simpl.
      rewrite (Hall _ l p q (list_elem_of_here _ _) eq_refl).
      destruct (IH (S n)) as (k & Hk & Hle & Hlt).
      { intros h' l' p' q' Hin. apply Hall. by right. }
      exists k. repeat split; [done | lia | lia].
Qed.

(** The part of C7 on identical positions that holds: when the last two
    positions of every expert with two responses are the same string and
    that string has a word of more than three characters, the stability
    is 1. *)
Lemma position_stability_identical t :
  (∀ id h l p q, (id, h) ∈ expertHistories t → h = l ++ [p; q] →
     position p = position q ∧
     key_terms (JsString.toLowerCase (position q)) ≠ ∅) →
  calculatePositionStability t = Fin 1.
Proof.
  intros Hall. unfold calculatePositionStability.
  case_bool_decide; [done |].
  destruct (fold_all_stable (snd <$> expertHistories t) 0) as [k Hk].
  { intros h l p q Hin ->.
    apply list_elem_of_fmap in Hin as ([id h'] & Heq & Hin). simpl in Heq. subst h'.
    destruct (Hall id _ l p q Hin eq_refl) as [-> Hne].
    by rewrite similarity_same. }
  rewrite Hk. case_bool_decide; [| done].
  apply NumberFacts.div_of_nat_self. lia.
Qed.

(** The part of C7 on disjoint vocabularies: after two rounds, when some
    expert has two responses and the last two positions of every such
    expert share no key term, the stability is 0. *)
Lemma position_stability_disjoint t :
  2 ≤ length (roundHistory t) →
  (∃ id h, (id, h) ∈ expertHistories t ∧ 2 ≤ length h) →
  (∀ id h l p q, (id, h) ∈ expertHistories t → h = l ++ [p; q] →
     key_terms (JsString.toLowerCase (position q))
     ## key_terms (JsString.toLowerCase (position p))) →
  calculatePositionStability t = Fin 0.
Proof.
  intros Hrounds (id0 & h0 & Hin0 & Hlen0) Hall.
  unfold calculatePositionStability.
  rewrite bool_decide_eq_false_2 by lia.
  destruct (fold_none_stable (snd <$> expertHistories t) 0) as (k & Hk & _ & Hlt).
  { intros h l p q Hin ->.
    apply list_elem_of_fmap in Hin as ([id h'] & Heq & Hin). simpl in Heq. subst h'.
    apply similarity_disjoint. by apply (Hall id _ l p q Hin). }
  rewrite Hk.
  assert (0 < k).
  { apply Hlt. exists h0. split; [| done].
    apply list_elem_of_fmap. by exists (id0, h0). }
  rewrite bool_decide_eq_true_2 by done.
  apply NumberFacts.div_zero_of_nat. lia.
Qed.

(** An expert who repeats a position with key terms is stable; one who
    moves to a position with other key terms is not. *)
Example position_stability_repeated :
  calculatePositionStability
    (Sample.two_rounds "Regulation should arrive early"
                       "Regulation should arrive early") = Fin 1.
Proof. number_compute. Qed.

Example position_stability_changed :
  calculatePositionStability
    (Sample.two_rounds "Regulation should arrive early"
                       "Markets will correct themselves") = Fin 0.
Proof. number_compute. Qed.

(** C7 at the failing input: one expert repeats, word for word, a
    position of fourteen characters without a word longer than three.
    Both key-term sets are empty, the similarity is 0/0 = NaN, the test
    [NaN > 0.7] fails and the stability is 0 where the claim says 1. *)
Theorem C7_identical_positions_unstable :
  let t := Sample.two_rounds "it is as it is" "it is as it is" in
  similarity "it is as it is" "it is as it is" = NaN ∧
  calculatePositionStability t = Fin 0 ∧
  calculatePositionStability t ≠ Fin 1.
Proof.
  simpl. split; [by vm_compute |].
  assert (E : calculatePositionStability
                (Sample.two_rounds "it is as it is" "it is as it is") = Fin 0).
  { number_compute. }
  split; [exact E |]. rewrite E. discriminate.
Qed.

End TrackerFacts.

Module AgentFacts.

Import DelphiAgent.

Lemma first_largest_unique cs c c' :
  Spec.first_largest cs c → Spec.first_largest cs c' → c = c'.
Proof.
  intros (i & Hi & Hmax & Hbefore) (i' & Hi' & Hmax' & Hbefore').
  destruct (Nat.lt_trichotomy i i') as [Hlt | [-> | Hgt]].
  - specialize (Hbefore' i c Hlt Hi). specialize (Hmax i' c' Hi'). lia.
  - congruence.
  - specialize (Hbefore i' c' Hgt Hi'). specialize (Hmax' i c Hi). lia.
Qed.

Lemma reduce_largest_inv pre rest largest :
  Spec.first_largest pre largest →
  Spec.first_largest (pre ++ rest) (reduce_largest largest rest).
Proof.
  revert pre largest. induction rest as [| current rest IH]; intros pre largest Hinv.
  - by rewrite app_nil_r.
  - unfold reduce_largest. simpl. fold (reduce_largest
      (if Nat.ltb (length (expert_ids largest)) (length (expert_ids current))
       then current else largest) rest).
    replace (pre ++ current :: rest) with ((pre ++ [current]) ++ rest)
      by (by rewrite <- app_assoc).
    apply IH. destruct Hinv as (i & Hi & Hmax & Hbefore).
    pose proof (lookup_lt_Some _ _ _ Hi) as Hlt.
    destruct (Nat.ltb_spec (length (expert_ids largest))
                           (length (expert_ids current))) as [Hbigger | Hnot].
    + exists (length pre). split; [| split].
      * by rewrite lookup_app_r, Nat.sub_diag by lia.
      * intros j c' Hj. destruct (decide (j < length pre)) as [Hjl | Hjr].
        -- rewrite lookup_app_l in Hj by done. specialize (Hmax j c' Hj). lia.
        -- rewrite lookup_app_r in Hj by lia.
           apply list_lookup_singleton_Some in Hj as [_ ->]. lia.
      * intros j c' Hjl Hj. rewrite lookup_app_l in Hj by done.
        specialize (Hmax j c' Hj). lia.
    + exists i. split; [| split].
      * by rewrite lookup_app_l.
      * intros j c' Hj. destruct (decide (j < length pre)) as [Hjl | Hjr].
        -- rewrite lookup_app_l in Hj by done. by apply (Hmax j).
        -- rewrite lookup_app_r in Hj by lia.
           apply list_lookup_singleton_Some in Hj as [_ ->]. lia.
      * intros j c' Hji Hj. rewrite lookup_app_l in Hj by lia.
        by apply (Hbefore j).
Qed.

Lemma reduce_largest_spec first rest :
  Spec.first_largest (first :: rest) (reduce_largest first (first :: rest)).
Proof.
  unfold reduce_largest. simpl. rewrite Nat.ltb_irrefl.
  apply (reduce_largest_inv [first] rest first).
  exists 0. split; [done |]. split.
  - intros j c' Hj. apply list_lookup_singleton_Some in Hj as [_ ->]. lia.
  - intros j c' Hj. lia.
Qed.

Lemma identifyDissentingViews_filter s responses :
  identifyDissentingViews s responses =
    to_view <$> List.filter
      (λ response, negb (Json.includes (largestCluster_ids s) (agent_id response)))
      responses.
Proof.
  unfold identifyDissentingViews. case_bool_decide as E; [| done].
  apply nil_length_inv in E. by rewrite E.
Qed.

(** C4 (as amended).  The dissenting views are taken from the expert
    responses of all rounds, in order: one view for every response whose
    [agent_id] is not among the expert ids of the largest cluster of the
    final round's synthesis (the first cluster with the most expert
    ids); when that synthesis has no cluster, every response of every
    round is a dissenting view. *)
Theorem C4_dissenting_views roundResults report
    (Hreport : generateFinalReportWithSupport roundResults = Some report) :
  ∃ finalRound,
    last roundResults = Some finalRound ∧
    expert_positions report = expertResponses finalRound ∧
    (clusters (synthesis finalRound) = [] →
     dissenting_views report = to_view <$> (roundResults ≫= expertResponses)) ∧
    (clusters (synthesis finalRound) ≠ [] →
     ∃ largest, Spec.first_largest (clusters (synthesis finalRound)) largest) ∧
    (∀ largest,
       Spec.first_largest (clusters (synthesis finalRound)) largest →
       dissenting_views report =
         to_view <$> List.filter
           (λ response,
              negb (Json.includes (expert_ids largest) (agent_id response)))
           (roundResults ≫= expertResponses)).
Proof.
  unfold generateFinalReportWithSupport in Hreport.
  destruct (last roundResults) as [finalRound |] eqn:Hlast; [| done].
  simpl in Hreport. injection Hreport as <-. simpl.
  exists finalRound. split; [done |]. split; [done |].
  rewrite identifyDissentingViews_filter. unfold largestCluster_ids.
  destruct (clusters (synthesis finalRound)) as [| first rest] eqn:Hcs.
  - split; [| split].
    + intros _. f_equal. apply forallb_filter_id. by apply forallb_forall.
    + done.
    + intros largest (i & Hi & _). done.
  - split; [done |]. split.
    + intros _. eexists. apply reduce_largest_spec.
    + intros largest Hlargest.
      by rewrite (first_largest_unique _ _ _ Hlargest (reduce_largest_spec first rest)).
Qed.

(** The theorem on a run of two rounds whose final synthesis has one
    cluster, holding the expert [a]: both responses of [b] dissent. *)
Lemma C4_dissenting_views_witness :
  ∃ report,
    generateFinalReportWithSupport
      (Sample.two_round_run [Sample.cluster "main" ["a"%string] 7 7]) = Some report ∧
    dv_position <$> dissenting_views report
      = ["First position of b"; "Final position of b"]%string.
Proof.
  eexists. split; [reflexivity |].
  destruct (C4_dissenting_views
              (Sample.two_round_run [Sample.cluster "main" ["a"%string] 7 7]) _ eq_refl)
    as (finalRound & Hlast & _ & _ & _ & Hviews).
  injection Hlast as <-.
  rewrite (Hviews (Sample.cluster "main" ["a"%string] 7 7)); [reflexivity |].
  exists 0. split; [reflexivity |]. split.
  - intros j c' Hj. apply list_lookup_singleton_Some in Hj as [_ <-]. done.
  - intros j c' Hj. lia.
Defined.

(** C4 as stated fails twice.  With the cluster [{a}] in the final round
    the report lists the first-round response of [b] too, which is not a
    final-round response; and with no cluster at all it lists every
    response of every round instead of none. *)
Lemma C4_counterexample :
  (∃ report,
     generateFinalReportWithSupport
       (Sample.two_round_run [Sample.cluster "main" ["a"%string] 7 7]) = Some report ∧
     dv_position <$> dissenting_views report
       = ["First position of b"; "Final position of b"]%string ∧
     dv_position <$> dissenting_views report
       ≠ position <$> List.filter (λ r, negb (bool_decide (agent_id r = "a"%string)))
                        (expert_positions report)) ∧
  (∃ report,
     generateFinalReportWithSupport (Sample.two_round_run []) = Some report ∧
     (clusters ∘ synthesis) <$> last (Sample.two_round_run []) = Some [] ∧
     length (dissenting_views report) = 4 ∧
     dissenting_views report ≠ []).
Proof.
  split; eexists; (split; [reflexivity |]).
  - split; [reflexivity | discriminate].
  - split; [reflexivity |]. split; [reflexivity | discriminate].
Qed.

End AgentFacts.

Module OrchestratorFacts.

Import Orchestrator.

Local Open Scope Qc_scope.

(** *** The average confidence *)

Lemma foldl_Qcplus (l : list Qc) (a : Qc) :
  foldl Qcplus a l = a + foldr Qcplus 0 l.
Proof.
  revert a. induction l as [| x l IH]; intros a; simpl; [ring |].
  rewrite IH. ring.
Qed.


(** C2 at the failing input: every expert of the round failed.  The sum
    of no confidence is 0, the count is 0, and [0 / 0] is [NaN]:
    [synthesizeRound] has no guard and stores [NaN] as the average. *)
Theorem C2_average_without_experts :
  averageConfidence [] = NaN ∧
  average_confidence <$> synthesizeRound 1 [] Sample.no_data = Some NaN.
Proof. split; reflexivity. Qed.

(** *** Clusters *)

Lemma includes_elem_of ids s :
  Json.includes ids s = true ↔ JStr s ∈ ids.
Proof.
  unfold Json.includes. rewrite existsb_exists. split.
  - intros (v & Hin & Hv). apply list_elem_of_In in Hin.
    destruct v; simpl in Hv; try discriminate.
    by apply bool_decide_eq_true in Hv as ->.
  - intros Hin. exists (JStr s). split; [by apply list_elem_of_In |].
    simpl. by apply bool_decide_eq_true.
Qed.

(** A pushed cluster carries the raw id array untouched, and at least
    one response of the round is named in it. *)
Lemma processCluster_pushed rawCluster expertResponses cluster :
  processCluster rawCluster expertResponses = Pushed cluster →
  prop rawCluster "expert_ids" = Some (JArr (expert_ids cluster)) ∧
  ∃ response, response ∈ expertResponses ∧
              JStr (agent_id response) ∈ expert_ids cluster.
Proof.
  unfold processCluster. intros H.
  destruct rawCluster; try discriminate H;
    destruct (prop _ "theme") as [rawTheme |]; try discriminate H;
    destruct (prop _ "expert_ids") as [[| | | | rawIds |] |]; try discriminate H;
    destruct (Json.truthy rawTheme); try discriminate H;
    destruct (List.filter _ expertResponses) as [| first others] eqn:Hf;
    try discriminate H;
    injection H as <-; simpl; (split; [done |]);
    exists first;
    assert (Hin : In first (List.filter
              (λ response, Json.includes rawIds (agent_id response))
              expertResponses)) by (rewrite Hf; by left);
    apply filter_In in Hin as [Hin Hinc];
    (split; [by apply list_elem_of_In | by apply includes_elem_of]).
Qed.

(** A raw cluster that names no response of the round is skipped. *)
Lemma processCluster_no_match rawCluster expertResponses :
  rawCluster ≠ JNull →
  (∀ rawIds response,
     prop rawCluster "expert_ids" = Some (JArr rawIds) →
     response ∈ expertResponses → JStr (agent_id response) ∉ rawIds) →
  processCluster rawCluster expertResponses = Skipped.
Proof.
  intros Hnull Hnone. unfold processCluster.
  destruct rawCluster; try done;
    destruct (prop _ "theme") as [rawTheme |]; try done;
    destruct (prop _ "expert_ids") as [[| | | | rawIds |] |] eqn:Hids; try done;
    destruct (Json.truthy rawTheme); try done;
    destruct (List.filter _ expertResponses) as [| first others] eqn:Hf;
    try done;
    assert (Hin : In first (List.filter
              (λ response, Json.includes rawIds (agent_id response))
              expertResponses)) by (rewrite Hf; by left);
    apply filter_In in Hin as [Hin Hinc];
    apply includes_elem_of in Hinc;
    exfalso; by apply (Hnone rawIds first eq_refl); [apply list_elem_of_In |].
Qed.

Lemma processClusters_app pre post expertResponses :
  processClusters (pre ++ post) expertResponses =
    a ← processClusters pre expertResponses;
    b ← processClusters post expertResponses;
    Some (a ++ b).
Proof.
  induction pre as [| rawCluster pre IH]; simpl.
  - by destruct (processClusters post expertResponses).
  - destruct (processCluster rawCluster expertResponses); [done | | done].
    rewrite IH. destruct (processClusters pre expertResponses); [| done].
    simpl. by destruct (processClusters post expertResponses).
Qed.

Lemma processClusters_elem raw expertResponses processed cluster :
  processClusters raw expertResponses = Some processed →
  cluster ∈ processed →
  ∃ rawCluster, rawCluster ∈ raw ∧
                processCluster rawCluster expertResponses = Pushed cluster.
Proof.
  revert processed. induction raw as [| rawCluster raw IH]; intros processed H Hin.
  - injection H as <-. by apply elem_of_nil in Hin.
  - simpl in H.
    destruct (processCluster rawCluster expertResponses) as [| c |] eqn:Hstep;
      [| | done].
    + destruct (IH _ H Hin) as (rc & Hrc & Hp). exists rc. split; [by right | done].
    + destruct (processClusters raw expertResponses) as [rest |] eqn:Hrest;
        [| done].
      injection H as <-. apply elem_of_cons in Hin as [-> | Hin].
      * exists rawCluster. split; [by left | done].
      * destruct (IH _ eq_refl Hin) as (rc & Hrc & Hp).
        exists rc. split; [by right | done].
Qed.

(** C3 (as amended).  A raw cluster is dropped entirely when none of its
    expert ids is the [agent_id] of a response of the round: the
    processed list is the one obtained without it.  Every processed
    cluster therefore names at least one response of the round; its
    [expert_ids] are the raw ids as the service sent them. *)
Theorem C3_processClusters raw expertResponses processed
    (Hprocessed : processClusters raw expertResponses = Some processed) :
  (∀ cluster, cluster ∈ processed →
     (∃ rawCluster, rawCluster ∈ raw ∧
        prop rawCluster "expert_ids" = Some (JArr (expert_ids cluster))) ∧
     (∃ response, response ∈ expertResponses ∧
        JStr (agent_id response) ∈ expert_ids cluster)) ∧
  (∀ pre rawCluster post,
     raw = pre ++ rawCluster :: post →
     (∀ rawIds response,
        prop rawCluster "expert_ids" = Some (JArr rawIds) →
        response ∈ expertResponses → JStr (agent_id response) ∉ rawIds) →
     processClusters (pre ++ post) expertResponses = Some processed).
Proof.
  split.
  - intros cluster Hin.
    destruct (processClusters_elem _ _ _ _ Hprocessed Hin) as (rc & Hrc & Hp).
    apply processCluster_pushed in Hp as [Hids Hresp].
    split; [by exists rc | done].
  - intros pre rawCluster post -> Hnone.
    rewrite processClusters_app in Hprocessed |- *.
    destruct (processClusters pre expertResponses) as [a |]; [| done].
    simpl in *.
    assert (Hnull : rawCluster ≠ JNull) by (by intros ->).
    by rewrite (processCluster_no_match _ _ Hnull Hnone) in Hprocessed.
Qed.

(** The theorem on a round with the single expert [a]: the cluster that
    names only an unknown expert leaves no trace. *)
Lemma C3_processClusters_witness :
  processClusters [Sample.raw_cluster "kept" ["a"%string]]
                  [Sample.response "a" "A position of some length" 7 []] =
  processClusters [Sample.raw_cluster "kept" ["a"%string];
                   Sample.raw_cluster "dropped" ["ghost"%string]]
                  [Sample.response "a" "A position of some length" 7 []].
Proof.
  refine (proj2 (C3_processClusters
            [Sample.raw_cluster "kept" ["a"%string];
             Sample.raw_cluster "dropped" ["ghost"%string]]
            [Sample.response "a" "A position of some length" 7 []] _ eq_refl)
          [Sample.raw_cluster "kept" ["a"%string]]
          (Sample.raw_cluster "dropped" ["ghost"%string]) [] eq_refl _).
  intros rawIds response Hids Hin Hmem.
  injection Hids as <-.
  apply list_elem_of_singleton in Hin as ->.
  apply list_elem_of_singleton in Hmem. discriminate Hmem.
Defined.

(** C3 as stated fails: a cluster that names a response of the round
    together with an unknown expert is kept, and the unknown id stays in
    its [expert_ids]. *)
Lemma C3_counterexample :
  let expertResponses := [Sample.response "a" "A position of some length" 7 []] in
  ∃ cluster,
    processClusters [Sample.raw_cluster "mixed" ["a"; "ghost"]%string]
                    expertResponses = Some [cluster] ∧
    expert_ids cluster = [JStr "a"; JStr "ghost"] ∧
    ¬ (∀ id, id ∈ expert_ids cluster →
             ∃ response, response ∈ expertResponses ∧
                         id = JStr (agent_id response)).
Proof.
  eexists. split; [reflexivity |]. split; [reflexivity |].
  intros H. destruct (H (JStr "ghost")) as (response & Hin & Hid).
  - simpl. right. left.
  - apply list_elem_of_singleton in Hin as ->. discriminate Hid.
Qed.

(** *** Dominant clusters *)




(** The ordering scenario of the specification: sizes 5, 5 and 2 with
    confidences 7, 9 and 10. *)
Example sort_clusters_scenario :
  theme <$> sort_clusters
    [Sample.cluster "five at 7" Sample.five 7 7;
     Sample.cluster "five at 9" Sample.five 9 9;
     Sample.cluster "two at 10" ["e1"; "e2"]%string 10 10]
  = [JStr "five at 9"; JStr "five at 7"; JStr "two at 10"].
Proof. by vm_compute. Qed.

(** C9 at the failing input: a synthesis whose smaller cluster comes
    first.  In a run, the object that [synthesizeRound] produced is
    reordered by [identifyDominantClusters] before the round is over, so
    the history does not hold the synthesis as produced; and the same
    call on an object that already is in the history reorders it
    there. *)
Theorem C9_clusters_sorted_in_place :
  let produced := Sample.small_first in
  let st := Run.round_step Run.initial produced in
  Run.history_view st ≠ [Some produced] ∧
  Run.history_themes st = [Some [JStr "majority"; JStr "minority"]] ∧
  Run.themes_of produced = [JStr "minority"; JStr "majority"] ∧
  let recorded := {| Run.heap := {[ 1%positive := produced ]};
                     Run.roundResults := [1%positive];
                     Run.roundHistory := [1%positive] |} in
  Run.history_view recorded = [Some produced] ∧
  ∃ themes heap',
    identifyDominantClusters (Run.heap recorded) 1%positive = Some (themes, heap') ∧
    Run.history_themes {| Run.heap := heap';
                          Run.roundResults := Run.roundResults recorded;
                          Run.roundHistory := Run.roundHistory recorded |}
      = [Some [JStr "majority"; JStr "minority"]].
Proof.
  assert (E : Run.history_themes (Run.round_step Run.initial Sample.small_first)
              = [Some [JStr "majority"; JStr "minority"]]) by (by vm_compute).
  simpl. split; [| split; [exact E | split; [reflexivity | split; [reflexivity |]]]].
  - intros H. unfold Run.history_themes in E. rewrite H in E.
    vm_compute in E. discriminate E.
  - eexists _, _. split; [reflexivity |]. by vm_compute.
Qed.

End OrchestratorFacts.

Module PerplexityFacts.

Import PerplexityTool.

(** Whatever the server does, [search] posts at most three requests and
    pauses for 1 s and then 2 s at most: a third pause never happens. *)
Lemma search_with_bounds {A} (post : nat → CaughtError + A) :
  requests (search_with post).2 ≤ 3 ∧
  pauses (search_with post).2 `prefix_of` [1000; 2000]%Z.
Proof.
  unfold search_with, maxRetries. simpl.
  destruct (post 0) as [e0 |]; simpl;
    [| split; [lia | by apply prefix_nil]].
  destruct (isTimeout e0 || is5xx e0)%bool; simpl;
    [| split; [lia | by apply prefix_nil]].
  destruct (post 1) as [e1 |]; simpl;
    [| split; [lia | by exists [2000%Z]]].
  destruct (isTimeout e1 || is5xx e1)%bool; simpl;
    [| split; [lia | by exists [2000%Z]]].
  destruct (post 2) as [e2 |]; simpl; [| split; [lia | done]].
  rewrite andb_false_r. split; [simpl; lia | done].
Qed.

(** An error is retried only if its message contains "timeout" or it
    carries a 5xx response; any other error ends the call at once. *)
Lemma search_with_fatal {A} (post : nat → CaughtError + A) error :
  post 0 = inl error → isTimeout error = false → is5xx error = false →
  search_with post =
    (Thrown ("Perplexity API failed: " +:+ detail error),
     {| requests := 1; pauses := [] |}).
Proof.
  intros Hpost Ht H5. unfold search_with. simpl.
  by rewrite Hpost, Ht, H5.
Qed.

(** After the interceptor no error carries a response. *)
Lemma interceptor_hides_status error : is5xx (interceptor error) = false.
Proof. reflexivity. Qed.

(** Through the client, the status of the answer plays no part: an
    error whose text does not contain "timeout" ends the call at the
    first request, be it a 4xx or a 5xx. *)
Lemma search_ignores_status {A} (transport : nat → CaughtError + A) error :
  transport 0 = inl error →
  isTimeout (interceptor error) = false →
  search transport =
    (Thrown ("Perplexity API failed: " +:+ detail (interceptor error)),
     {| requests := 1; pauses := [] |}).
Proof.
  intros Hfirst Ht. unfold search.
  apply search_with_fatal; [| done | apply interceptor_hides_status].
  unfold client_post. by rewrite Hfirst.
Qed.

(** Time-outs are retried with pauses of 1 s and 2 s, three requests in
    all. *)
Example search_never_in_time :
  search Sample.never_in_time =
    (Thrown "Perplexity API failed: Perplexity API failed: timeout of 30000ms exceeded",
     {| requests := 3; pauses := [1000; 2000]%Z |}).
Proof. reflexivity. Qed.

(** The loop itself does retry a 5xx error that still carries its
    response. *)
Example search_with_unavailable_once :
  search_with Sample.unavailable_once =
    (Returned "answer"%string, {| requests := 2; pauses := [1000%Z] |}).
Proof. reflexivity. Qed.

(** C5 at the failing input: the server answers the first request with
    HTTP 503 and would answer the second.  The interceptor has replaced
    the axios error by a plain [Error] without [response], so [is5xx]
    is false, the message holds no "timeout", and [search] throws after
    one request and no pause. *)
Theorem C5_server_error_not_retried :
  search Sample.unavailable_once =
    (Thrown "Perplexity API failed: Perplexity API failed: Request failed with status code 503",
     {| requests := 1; pauses := [] |}).
Proof. reflexivity. Qed.

End PerplexityFacts.

Module OpenAIFacts.

Import OpenAIHelpers.

(** *** The caller's heap is a frame *)

Lemma framed_write h st o :
  framed h st →
  framed h {| heap := <[r st := o]> (heap st); r := r st; calls := calls st |}.
Proof.
  intros [Hsub Hr]. split; [| done]. simpl. by apply insert_subseteq_r.
Qed.

Lemma framed_rebind h st o : framed h st → framed h (rebind st o).
Proof.
  intros [Hsub Hr]. unfold rebind.
  assert (Hfresh : h !! fresh (dom (heap st)) = None).
  { apply not_elem_of_dom. intros Hin.
    apply (is_fresh (dom (heap st))). by apply (subseteq_dom _ _ Hsub). }
  split; simpl; [by apply insert_subseteq_r | done].
Qed.

Lemma framed_calls h st cs :
  framed h st → framed h {| heap := heap st; r := r st; calls := cs |}.
Proof. by intros [Hsub Hr]. Qed.

Lemma runOnce_framed create h st :
  framed h st → framed h (runOnce create st).2.
Proof.
  intros Hf. unfold runOnce.
  destruct (create (length (calls st)) (current st)) as [err | res]; simpl;
    [by apply framed_calls |].
  destruct (noChoices res || noMessage res || noContent res)%bool;
    [| by apply framed_calls].
  destruct (truthy (get (current st) "model")
            && differs_from (get (current st) "model") fallback)%bool;
    [| by apply framed_calls].
  simpl. destruct Hf as [Hsub Hr]. split; simpl; [by apply insert_subseteq_r | done].
Qed.

Lemma handle_framed err h st st' :
  framed h st → handle err st = Some st' → framed h st'.
Proof.
  intros Hf. unfold handle.
  repeat match goal with
         | |- context [if ?b then _ else _] => destruct b
         end;
    intros H; try discriminate H; injection H as <-;
    first [ by apply framed_rebind | by apply (framed_write h st) ].
Qed.

Lemma attempts_framed create fuel h st :
  framed h st → framed h (attempts create fuel st).2.
Proof.
  revert st. induction fuel as [| fuel IH]; intros st Hf; [done |].
  simpl. pose proof (runOnce_framed create h st Hf) as Hrun.
  destruct (runOnce create st) as [[err | res] st1]; simpl in *; [| done].
  destruct (handle err st1) as [st2 |] eqn:Hh; [| done].
  apply IH. by apply (handle_framed err h st1).
Qed.

(** C10.  Whatever the service answers and however the call ends, every
    object of the caller's heap, the request object among them, holds
    after the call what it held before: the parameter changes and the
    fallback model are written to clones. *)
Theorem C10_request_unchanged create (h : gmap loc object) req l o
    (Hcaller : h !! l = Some o) :
  heap (safeChatCompletion create h req).2 !! l = Some o.
Proof.
  assert (Hf : framed h (safeChatCompletion create h req).2).
  { unfold safeChatCompletion. apply attempts_framed.
    assert (Hfresh : h !! fresh (dom h) = None).
    { apply not_elem_of_dom. apply is_fresh. }
    split; simpl; [by apply insert_subseteq | done]. }
  destruct Hf as [Hsub _].
  by apply (lookup_weaken _ _ _ _ Hcaller Hsub).
Qed.

(** The theorem on a call that goes through three transformations:
    the request sent last has lost [temperature], renamed [max_tokens]
    and switched to the fallback model, and the caller's object is as
    it was. *)
Lemma C10_request_unchanged_witness :
  (safeChatCompletion Sample.picky (Sample.caller_heap "o3") (Some 1%positive)).1
    = Returned (Sample.answer "done") ∧
  last (calls (safeChatCompletion Sample.picky (Sample.caller_heap "o3")
                 (Some 1%positive)).2)
    = Some ({[ "model" := VStr "gpt-4o";
               "messages" := VRef 2%positive;
               "max_completion_tokens" := VNum (Q2Qc 2000) ]} : object) ∧
  heap (safeChatCompletion Sample.picky (Sample.caller_heap "o3")
          (Some 1%positive)).2 !! 1%positive
    = Some (Sample.request "o3").
Proof.
  split; [by vm_compute |]. split; [by vm_compute |].
  apply (C10_request_unchanged Sample.picky (Sample.caller_heap "o3")
           (Some 1%positive) 1%positive (Sample.request "o3")).
  reflexivity.
Defined.

(** *** Empty answers *)

Lemma runOnce_calls create st :
  calls st `prefix_of` calls (runOnce create st).2.
Proof.
  unfold runOnce.
  destruct (create (length (calls st)) (current st)) as [err | res]; simpl;
    [by eexists |].
  destruct (noChoices res || noMessage res || noContent res)%bool;
    [| by eexists].
  destruct (truthy (get (current st) "model")
            && differs_from (get (current st) "model") fallback)%bool;
    by eexists.
Qed.

Lemma handle_calls err st st' : handle err st = Some st' → calls st' = calls st.
Proof.
  unfold handle.
  repeat match goal with
         | |- context [if ?b then _ else _] => destruct b
         end;
    intros H; try discriminate H; by injection H as <-.
Qed.

Lemma attempts_calls create fuel st :
  calls st `prefix_of` calls (attempts create fuel st).2.
Proof.
  revert st. induction fuel as [| fuel IH]; intros st; [done |].
  simpl. pose proof (runOnce_calls create st) as Hrun.
  destruct (runOnce create st) as [[err | res] st1]; simpl in *; [| done].
  destruct (handle err st1) as [st2 |] eqn:Hh; [| done].
  etrans; [exact Hrun |]. rewrite <- (handle_calls _ _ _ Hh). apply IH.
Qed.

Lemma attempts_after_runOnce create fuel st :
  calls (runOnce create st).2 `prefix_of` calls (attempts create (S fuel) st).2.
Proof.
  simpl. destruct (runOnce create st) as [[err | res] st1]; simpl; [| done].
  destruct (handle err st1) as [st2 |] eqn:Hh; [| done].
  rewrite <- (handle_calls _ _ _ Hh). apply attempts_calls.
Qed.

(** [runOnce] retries at once, and once, against the fallback model when
    an answer without text comes back for another model; what it then
    returns or throws is the outcome of that second call. *)
Lemma runOnce_retries create st res :
  create (length (calls st)) (current st) = inr res →
  usable res = false →
  truthy (get (current st) "model") = true →
  differs_from (get (current st) "model") fallback = true →
  (runOnce create st).1
    = create (S (length (calls st)))
             (<["model" := VStr fallback]> (current st)) ∧
  calls (runOnce create st).2
    = calls st ++ [current st; <["model" := VStr fallback]> (current st)].
Proof.
  intros Hres Hu Ht Hd. unfold runOnce. rewrite Hres.
  unfold usable in Hu. apply negb_false_iff in Hu. by rewrite Hu, Ht, Hd.
Qed.

(** An answer that [runOnce] returns has text, unless the request that
    produced it was on the fallback model or named no model. *)
Lemma runOnce_returned create st res :
  (runOnce create st).1 = inr res →
  usable res = true ∨
  ∃ sent, last (calls (runOnce create st).2) = Some sent ∧ on_fallback sent.
Proof.
  unfold runOnce.
  destruct (create (length (calls st)) (current st)) as [err | res0] eqn:Hfirst;
    simpl; [done |].
  destruct (noChoices res0 || noMessage res0 || noContent res0)%bool eqn:Hempty.
  - destruct (truthy (get (current st) "model")) eqn:Ht; simpl.
    + destruct (differs_from (get (current st) "model") fallback) eqn:Hd; simpl.
      * intros _. right. exists (<["model" := VStr fallback]> (current st)).
        split.
        -- replace (calls st ++ [current st; <["model" := VStr fallback]> (current st)])
             with ((calls st ++ [current st])
                   ++ [<["model" := VStr fallback]> (current st)])
             by (by rewrite <- app_assoc).
           apply last_snoc.
        -- right. unfold get. by rewrite lookup_insert_eq.
      * intros _. right. exists (current st). split; [apply last_snoc |].
        right. unfold differs_from in Hd.
        destruct (get (current st) "model"); try discriminate Hd.
        apply negb_false_iff, bool_decide_eq_true in Hd. by subst.
    + intros _. right. exists (current st). split; [apply last_snoc |]. by left.
  - intros [= <-]. left. unfold usable. by rewrite Hempty.
Qed.

Lemma attempts_returned create fuel st res :
  (attempts create fuel st).1 = Returned res →
  usable res = true ∨
  ∃ sent, last (calls (attempts create fuel st).2) = Some sent ∧ on_fallback sent.
Proof.
  revert st. induction fuel as [| fuel IH]; intros st; [done |].
  simpl. pose proof (runOnce_returned create st) as Hrun.
  destruct (runOnce create st) as [[err | res1] st1]; simpl in *.
  - destruct (handle err st1) as [st2 |]; [apply IH | done].
  - intros [= <-]. by apply Hrun.
Qed.

(** C1 (as amended).  A call returns an answer or throws.  The answer
    returned has text that is not blank, unless the request that
    produced it was already on the fallback model (or named no model):
    an empty answer of the fallback is returned as it is.  When the
    first answer has no usable text and the model requested is not the
    fallback, the second request is the same one on the fallback model,
    made before any error can surface. *)
Theorem C1_safeChatCompletion create (h : gmap loc object) req :
  (∀ res,
     (safeChatCompletion create h req).1 = Returned res →
     usable res = true ∨
     ∃ sent, last (calls (safeChatCompletion create h req).2) = Some sent ∧
             on_fallback sent) ∧
  (∀ first,
     create 0 (clone h req) = inr first →
     usable first = false →
     truthy (get (clone h req) "model") = true →
     differs_from (get (clone h req) "model") fallback = true →
     calls (safeChatCompletion create h req).2 !! 1
       = Some (<["model" := VStr fallback]> (clone h req)) ∧
     (runOnce create {| heap := <[fresh (dom h) := clone h req]> h;
                        r := fresh (dom h); calls := [] |}).1
       = create 1 (<["model" := VStr fallback]> (clone h req))).
Proof.
  split; [intros res; by apply attempts_returned |].
  intros first Hfirst Hu Ht Hd.
  set (st0 := {| heap := <[fresh (dom h) := clone h req]> h;
                 r := fresh (dom h); calls := [] |}).
  assert (Hcur : current st0 = clone h req).
  { unfold current, st0. simpl. by rewrite lookup_insert_eq. }
  destruct (runOnce_retries create st0 first) as [Hout Hcalls];
    rewrite ?Hcur; try done.
  rewrite Hcur in Hout, Hcalls. simpl in Hout, Hcalls.
  split; [| exact Hout].
  destruct (attempts_after_runOnce create 4 st0) as [k Hk].
  unfold safeChatCompletion. fold st0. by rewrite Hk, Hcalls.
Qed.

(** The theorem on a request for the model [o3] to a service that
    always answers without a choice: the second request is the first
    one on the fallback model. *)
Lemma C1_safeChatCompletion_witness :
  calls (safeChatCompletion Sample.always_empty (Sample.caller_heap "o3")
           (Some 1%positive)).2 !! 1
  = Some (<["model" := VStr fallback]>
            (clone (Sample.caller_heap "o3") (Some 1%positive))).
Proof.
  refine (proj1 (proj2 (C1_safeChatCompletion Sample.always_empty
                          (Sample.caller_heap "o3") (Some 1%positive))
                   Sample.empty_answer _ _ _ _));
    by vm_compute.
Defined.

(** C1 as stated fails: when the service answers the fallback model
    with no choice, the call returns that answer, which has no text, and
    throws nothing.  This happens for a request on the fallback model
    and, after the retry, for a request on any other model. *)
Lemma C1_counterexample :
  usable Sample.empty_answer = false ∧
  (safeChatCompletion Sample.always_empty (Sample.caller_heap "gpt-4o")
     (Some 1%positive)).1 = Returned Sample.empty_answer ∧
  length (calls (safeChatCompletion Sample.always_empty
                   (Sample.caller_heap "gpt-4o") (Some 1%positive)).2) = 1 ∧
  (safeChatCompletion Sample.always_empty (Sample.caller_heap "o3")
     (Some 1%positive)).1 = Returned Sample.empty_answer ∧
  length (calls (safeChatCompletion Sample.always_empty
                   (Sample.caller_heap "o3") (Some 1%positive)).2) = 2.
Proof. repeat split; by vm_compute. Qed.

End OpenAIFacts.

(** * Properties of the rest of the code *)

Module MetricsFacts.

Import ConvergenceTracker TrackerMetrics.

Local Open Scope Qc_scope.

Lemma qnat_le n m : (n ≤ m)%nat → qnat n ≤ qnat m.
Proof.
  intros H. unfold Qcle, qnat. simpl. rewrite !Qred_correct.
  rewrite <- Zle_Qle. lia.
Qed.

Lemma qnat_pos n : (0 < n)%nat → 0 < qnat n.
Proof.
  intros H. unfold Qclt, qnat. simpl. rewrite !Qred_correct.
  change 0%Q with (inject_Z 0). rewrite <- Zlt_Qlt. lia.
Qed.

Lemma Qcdiv_range x y : 0 ≤ x → x ≤ y → 0 < y → 0 ≤ x / y ∧ x / y ≤ 1.
Proof.
  intros Hx Hxy Hy.
  assert (E : x / y * y = x).
  { rewrite Qcmult_comm. apply Qcmult_div_r. by apply Qclt_not_eq in Hy. }
  split; apply (Qcmult_lt_0_le_reg_r _ _ y Hy); rewrite E.
  - by rewrite Qcmult_0_l.
  - by rewrite Qcmult_1_l.
Qed.

(** A ratio of two counts, the first not above the second, is a number
    between 0 and 1. *)
Lemma count_ratio s t :
  (s ≤ t)%nat → (0 < t)%nat →
  ∃ q, div (of_nat s) (of_nat t) = Fin q ∧ 0 ≤ q ∧ q ≤ 1.
Proof.
  intros Hst Ht. exists (qnat s / qnat t). split.
  - unfold div, of_nat. destruct (decide (qnat t = 0)) as [E | E]; [| done].
    apply NumberFacts.qnat_zero in E. lia.
  - apply Qcdiv_range; [apply (qnat_le 0); lia | by apply qnat_le | by apply qnat_pos].
Qed.

Lemma stability_step_counts acc h :
  (acc.2 ≤ acc.1)%nat →
  ((stability_step acc h).2 ≤ (stability_step acc h).1)%nat.
Proof.
  intros Hacc. destruct (TrackerFacts.history_shape h) as [Hs | (l & p & q & ->)].
  - by rewrite TrackerFacts.stability_step_short.
  - rewrite TrackerFacts.stability_step_last_two. simpl.
    destruct (gt _ _); simpl; lia.
Qed.

Lemma stability_fold_counts hs acc :
  (acc.2 ≤ acc.1)%nat →
  ((foldl stability_step acc hs).2 ≤ (foldl stability_step acc hs).1)%nat.
Proof.
  revert acc. induction hs as [| h hs IH]; intros acc Hacc; [done |].
  simpl. apply IH. by apply stability_step_counts.
Qed.

(** Whatever the tracker holds, the position stability is a number
    between 0 and 1: it is never [NaN], although the similarity of one
    expert may be. *)
Theorem position_stability_range t :
  ∃ q, calculatePositionStability t = Fin q ∧ 0 ≤ q ∧ q ≤ 1.
Proof.
  unfold calculatePositionStability.
  case_bool_decide; [by exists 1 |].
  pose proof (stability_fold_counts (snd <$> expertHistories t) (0%nat, 0%nat)
                (le_n 0)) as Hcount.
  destruct (foldl stability_step (0%nat, 0%nat) (snd <$> expertHistories t))
    as [total stable]. simpl in Hcount.
  case_bool_decide; [by apply count_ratio | by exists 1].
Qed.

(** Whatever the tracker holds, the citation overlap is a number
    between 0 and 1. *)
Theorem citation_overlap_range t :
  ∃ q, calculateCitationOverlap t = Fin q ∧ 0 ≤ q ∧ q ≤ 1.
Proof.
  unfold calculateCitationOverlap.
  case_bool_decide; [by exists 0 |].
  case_bool_decide; [by exists 1 |].
  case_bool_decide; [| by exists 0].
  apply count_ratio; [| done].
  pose proof (List.filter_length (pair_overlaps (latest_citations t))
                (index_pairs (length (latest_citations t)))).
  lia.
Qed.

Lemma weighted_range x w : 0 ≤ x → x ≤ 1 → 0 ≤ w → 0 ≤ x * w ∧ x * w ≤ w.
Proof.
  intros Hx0 Hx1 Hw. split.
  - rewrite <- (Qcmult_0_l w). by apply Qcmult_le_compat_r.
  - rewrite <- (Qcmult_1_l w) at 2. by apply Qcmult_le_compat_r.
Qed.

Lemma maxClusterSize_bound cs n :
  (∀ c, c ∈ cs → (length (expert_ids c) ≤ n)%nat) → (maxClusterSize cs ≤ n)%nat.
Proof.
  unfold maxClusterSize. induction cs as [| c cs IH]; intros Hall; simpl; [lia |].
  apply Nat.max_lub; [apply Hall; by left | apply IH].
  intros c' Hc'. apply Hall. by right.
Qed.

(** The consensus clarity of the latest round is a number between 0 and
    1 as soon as no cluster lists more expert ids than the round has
    participants and the average confidence is a number between 0 and
    10. *)
Theorem consensus_clarity_range t cur a
    (Hlast : last (roundHistory t) = Some cur)
    (Hsizes : ∀ c, c ∈ clusters cur →
                   (length (expert_ids c) ≤ participation_count cur)%nat)
    (Havg : average_confidence cur = Fin a)
    (Hlow : 0 ≤ a) (Hhigh : a ≤ qnat 10) :
  ∃ q, calculateConsensusClarity t = Fin q ∧ 0 ≤ q ∧ q ≤ 1.
Proof.
  unfold calculateConsensusClarity. rewrite Hlast, Havg.
  destruct (count_ratio (length (consensus_areas cur))
              (Nat.max 1 (length (consensus_areas cur)
                          + length (divergence_areas cur))))
    as (q1 & -> & H1l & H1h); [lia | lia |].
  destruct (count_ratio (maxClusterSize (clusters cur))
              (Nat.max 1 (participation_count cur)))
    as (q2 & -> & H2l & H2h);
    [pose proof (maxClusterSize_bound _ _ Hsizes); lia | lia |].
  assert (H3 : 0 ≤ a / qnat 10 ∧ a / qnat 10 ≤ 1).
  { apply Qcdiv_range; [done | done |]. apply qnat_pos. lia. }
  destruct H3 as [H3l H3h].
  unfold div, of_nat. destruct (decide (qnat 10 = 0)) as [E | _].
  { apply NumberFacts.qnat_zero in E. lia. }
  simpl. eexists. split; [reflexivity |].
  destruct (weighted_range q1 (Q2Qc (4 # 10)) H1l H1h) as [A1 A2]; [done |].
  destruct (weighted_range q2 (Q2Qc (3 # 10)) H2l H2h) as [B1 B2]; [done |].
  destruct (weighted_range (a / qnat 10) (Q2Qc (3 # 10)) H3l H3h) as [C1 C2]; [done |].
  split.
  - replace 0 with (0 + 0 + 0) by (by apply Qc_is_canon).
    by repeat apply Qcplus_le_compat.
  - replace 1 with (Q2Qc (4 # 10) + Q2Qc (3 # 10) + Q2Qc (3 # 10))
      by (by apply Qc_is_canon).
    by repeat apply Qcplus_le_compat.
Qed.

Lemma consensus_clarity_range_witness :
  ∃ q, calculateConsensusClarity
         (addRound empty (Sample.unanimous ["the panel agrees"%string]) [])
       = Fin q ∧ 0 ≤ q ∧ q ≤ 1.
Proof.
  apply (consensus_clarity_range _
           (Sample.unanimous ["the panel agrees"%string]) (qnat 8));
    try done.
  intros c Hc. apply list_elem_of_singleton in Hc as ->. simpl. lia.
Defined.

(** A cluster that lists more expert ids than the round has participants
    takes the clarity above 1. *)
Example consensus_clarity_above_one :
  calculateConsensusClarity
    (addRound empty
       (Sample.synthesis 1 [Sample.cluster "mixed" ["a"; "ghost"; "other"]%string 8 8]
                         ["agreed"%string] [] (of_nat 8) 1) [])
  = lit 154 100.
Proof. number_compute. Qed.











(** The other direction fails: the exit test is looser than the label.
    Here the clarity is 0.79: [hasConverged] holds and the reason stays
    [max_rounds]. *)
Example converged_without_label :
  let t := Scenario.steady
             (Sample.synthesis 2 [Sample.cluster "all" ["a"%string] 9 9]
                               ["one"; "two"]%string ["three"%string]
                               (lit 745 100) 1) in
  hasConverged t = true ∧ determineTerminationReason t = max_rounds.
Proof. by vm_compute. Qed.

(** *** What [addRound] records *)

Lemma history_push_lookup k k' r m :
  default [] (history_of k (history_push k' r m))
  = default [] (history_of k m) ++ (if decide (k = k') then [r] else []).
Proof.
  induction m as [| [k0 h] m IH]; simpl.
  - by destruct (decide (k = k')).
  - destruct (decide (k' = k0)) as [-> | Hne0]; simpl.
    + destruct (decide (k = k0)); simpl; [done | by rewrite app_nil_r].
    + destruct (decide (k = k0)) as [-> | Hne]; simpl; [| exact IH].
      destruct (decide (k0 = k')); [congruence | by rewrite app_nil_r].
Qed.

(** After [addRound], the history of every expert is its former history
    followed by its responses of the round, in order; an expert without
    a response in the round keeps its history as it was. *)
Theorem addRound_history t synthesis expertResponses k :
  default [] (history_of k
                (expertHistories (addRound t synthesis expertResponses)))
  = default [] (history_of k (expertHistories t))
    ++ List.filter (λ response, bool_decide (agent_id response = k))
                   expertResponses.
Proof.
  simpl. generalize (expertHistories t).
  induction expertResponses as [| r rs IH]; intros m; simpl.
  - by rewrite app_nil_r.
  - rewrite IH, history_push_lookup.
    destruct (decide (k = agent_id r)) as [-> | Hne].
    + rewrite bool_decide_eq_true_2 by done. by rewrite <- app_assoc.
    + rewrite bool_decide_eq_false_2 by congruence. by rewrite app_nil_r.
Qed.

(** An entry of the map is well formed when its history is not empty and
    holds responses of its own expert only. *)
Lemma history_push_wellformed k r m :
  agent_id r = k →
  NoDup (fst <$> m) →
  Forall (λ entry : string * list ExpertResponse,
            entry.2 ≠ [] ∧ ∀ x, x ∈ entry.2 → agent_id x = entry.1) m →
  NoDup (fst <$> history_push k r m) ∧
  Forall (λ entry : string * list ExpertResponse,
            entry.2 ≠ [] ∧ ∀ x, x ∈ entry.2 → agent_id x = entry.1)
         (history_push k r m) ∧
  ∀ k', k' ∈ fst <$> history_push k r m → k' = k ∨ k' ∈ fst <$> m.
Proof.
  intros Hk. induction m as [| [k0 h] m IH]; intros Hnd Hall; simpl.
  - split; [repeat constructor; by apply not_elem_of_nil |].
    split.
    + constructor; [| constructor]. simpl. split; [done |].
      intros x Hx. by apply list_elem_of_singleton in Hx as ->.
    + intros k' Hk'. left. by apply list_elem_of_singleton in Hk'.
  - rewrite fmap_cons in Hnd. apply NoDup_cons in Hnd as [Hnotin Hnd'].
    apply Forall_cons in Hall as [[Hne Hown] Hall']. simpl in Hne, Hown, Hnotin.
    destruct (decide (k = k0)) as [-> | Hne0]; simpl.
    + split; [by constructor |]. split.
      * constructor; [| done]. simpl. split; [by destruct h |].
        intros x [Hx | Hx%list_elem_of_singleton]%elem_of_app; [by apply Hown | by subst].
      * intros k' Hk'. by right.
    + destruct (IH Hnd' Hall') as (Hnd2 & Hall2 & Hkeys).
      split; [| split].
      * constructor; [| done]. intros Hin. destruct (Hkeys _ Hin); [by subst | done].
      * by constructor.
      * intros k' [-> | Hin]%elem_of_cons; [right; by left |].
        destruct (Hkeys _ Hin); [by left | right; by right].
Qed.

(** In a tracker in use the map has one entry per expert, no entry is
    empty, and every entry holds the responses of its own expert only. *)
Theorem tracker_wellformed t (Hreach : reachable t) :
  NoDup (fst <$> expertHistories t) ∧
  Forall (λ entry : string * list ExpertResponse,
            entry.2 ≠ [] ∧ ∀ x, x ∈ entry.2 → agent_id x = entry.1)
         (expertHistories t).
Proof.
  induction Hreach as [| t s rs _ [Hnd Hall]]; simpl.
  - split; constructor.
  - revert Hnd Hall. generalize (expertHistories t).
    induction rs as [| r rs IHrs]; intros m Hnd Hall; simpl; [done |].
    destruct (history_push_wellformed (agent_id r) r m eq_refl Hnd Hall)
      as (Hnd' & Hall' & _).
    by apply IHrs.
Qed.

Lemma tracker_wellformed_witness :
  NoDup (fst <$> expertHistories (Scenario.steady Scenario.agreed)) ∧
  Forall (λ entry : string * list ExpertResponse,
            entry.2 ≠ [] ∧ ∀ x, x ∈ entry.2 → agent_id x = entry.1)
         (expertHistories (Scenario.steady Scenario.agreed)).
Proof.
  apply tracker_wellformed.
  apply reachable_addRound, reachable_addRound, reachable_empty.
Defined.

(** *** The confidence spread *)

Lemma qnat_S n : qnat (S n) = qnat n + 1.
Proof.
  apply Qc_is_canon. unfold qnat. simpl. rewrite !Qred_correct.
  rewrite Nat2Z.inj_succ, <- Z.add_1_r, inject_Z_plus. reflexivity.
Qed.

Lemma sum_constant (x : Qc) (scores : list Qc) :
  (∀ s, s ∈ scores → s = x) →
  foldl Qcplus 0 scores = qnat (length scores) * x.
Proof.
  intros Hall. rewrite OrchestratorFacts.foldl_Qcplus, Qcplus_0_l.
  induction scores as [| s scores IH]; simpl.
  - change (qnat 0) with 0. by rewrite Qcmult_0_l.
  - rewrite IH by (intros s' Hs'; apply Hall; by right).
    rewrite (Hall s) by (by left). rewrite qnat_S. ring.
Qed.

Lemma squares_constant (x : Qc) (scores : list Qc) (a : Qc) :
  (∀ s, s ∈ scores → s = x) →
  foldl (λ sum score, sum + (score - x) * (score - x)) a scores = a.
Proof.
  revert a. induction scores as [| s scores IH]; intros a Hall; simpl; [done |].
  rewrite IH by (intros s' Hs'; apply Hall; by right).
  rewrite (Hall s) by (by left). ring.
Qed.

(** When every cluster of the latest round has the same midpoint (in
    particular when there is a single cluster, or none) the confidence
    spread is [Math.sqrt(0)]. *)
Theorem spread_of_equal_midpoints t cur x
    (Hlast : last (roundHistory t) = Some cur)
    (Hsame : ∀ c, c ∈ clusters cur → midpoint c = x) :
  calculateConfidenceSpread t = Sqrt 0.
Proof.
  unfold calculateConfidenceSpread. rewrite Hlast.
  destruct (midpoint <$> clusters cur) as [| s scores] eqn:E; [done |].
  f_equal. rewrite <- E.
  assert (Hall : ∀ s, s ∈ midpoint <$> clusters cur → s = x).
  { intros s' (c & -> & Hc)%list_elem_of_fmap. by apply Hsame. }
  assert (Hn : qnat (length (midpoint <$> clusters cur)) ≠ 0).
  { rewrite E. intros H0. apply NumberFacts.qnat_zero in H0. discriminate H0. }
  unfold variance.
  assert (Hmean : mean (midpoint <$> clusters cur) = x).
  { unfold mean. rewrite (sum_constant x) by done.
    rewrite Qcmult_comm. by apply Qcdiv_mult_l. }
  rewrite Hmean, squares_constant by done.
  unfold Qcdiv. apply Qcmult_0_l.
Qed.

Lemma spread_of_equal_midpoints_witness :
  calculateConfidenceSpread (Scenario.steady Scenario.agreed) = Sqrt 0.
Proof.
  apply (spread_of_equal_midpoints (Scenario.steady Scenario.agreed)
           Scenario.agreed
           (midpoint (Sample.cluster "all" ["a"%string] 9 9)));
    [reflexivity |].
  intros c Hc. by apply list_elem_of_singleton in Hc as ->.
Defined.

End MetricsFacts.

Module ClusterFacts.

Import Orchestrator Ranking.

Local Open Scope Qc_scope.

(** *** [processClusters] *)

Lemma processCluster_faulted rawCluster expertResponses :
  processCluster rawCluster expertResponses = Faulted ↔ rawCluster = JNull.
Proof.
  split; [| by intros ->].
  unfold processCluster.
  destruct rawCluster; try done;
    destruct (prop _ "theme") as [rawTheme |]; try done;
    destruct (prop _ "expert_ids") as [[| | | | rawIds |] |]; try done;
    destruct (Json.truthy rawTheme); try done;
    by destruct (List.filter _ expertResponses).
Qed.

(** [processClusters] throws exactly when the array of raw clusters holds
    a [null]; every other value that is not a well-formed cluster is
    skipped without an error. *)
Theorem processClusters_faults raw expertResponses :
  processClusters raw expertResponses = None ↔ JNull ∈ raw.
Proof.
  induction raw as [| rawCluster raw IH]; simpl.
  - split; [done | intros H; by apply elem_of_nil in H].
  - destruct (processCluster rawCluster expertResponses) as [| c |] eqn:Hstep.
    + rewrite IH. split; [by right |].
      intros [<- | H]%elem_of_cons; [discriminate Hstep | done].
    + destruct (processClusters raw expertResponses) eqn:Hrest; simpl.
      * split; [done |]. intros [<- | H]%elem_of_cons; [discriminate Hstep |].
        by apply IH in H.
      * split; [| done]. intros _. right. by apply IH.
    + apply processCluster_faulted in Hstep as ->. split; [by left | done].
Qed.

(** What a pushed cluster is made of. *)
Lemma processCluster_pushed_inv rawCluster expertResponses cluster :
  processCluster rawCluster expertResponses = Pushed cluster →
  prop rawCluster "theme" = Some (theme cluster) ∧
  ∃ first others,
    List.filter (λ response, Json.includes (expert_ids cluster) (agent_id response))
                expertResponses = first :: others ∧
    confidence_range cluster
      = (min_of (confidence first) (confidence <$> others),
         max_of (confidence first) (confidence <$> others)) ∧
    supporting_sources cluster
      = take 10 (foldl add_source [] ((first :: others) ≫= sources)).
Proof.
  unfold processCluster. intros H.
  destruct rawCluster; try discriminate H;
    destruct (prop _ "theme") as [rawTheme |]; try discriminate H;
    destruct (prop _ "expert_ids") as [[| | | | rawIds |] |]; try discriminate H;
    destruct (Json.truthy rawTheme); try discriminate H;
    destruct (List.filter _ expertResponses) as [| first others] eqn:Hf;
    try discriminate H;
    injection H as <-; simpl; (split; [done |]); by exists first, others.
Qed.

Lemma qmin_le a b : qmin a b ≤ a ∧ qmin a b ≤ b.
Proof.
  unfold qmin. destruct (decide (b < a)) as [H | H].
  - split; [by apply Qclt_le_weak | apply Qcle_refl].
  - split; [apply Qcle_refl | by apply Qcnot_lt_le].
Qed.

Lemma qmax_ge a b : a ≤ qmax a b ∧ b ≤ qmax a b.
Proof.
  unfold qmax. destruct (decide (a < b)) as [H | H].
  - split; [by apply Qclt_le_weak | apply Qcle_refl].
  - split; [apply Qcle_refl | by apply Qcnot_lt_le].
Qed.

Lemma min_of_le x xs : ∀ y, y ∈ x :: xs → min_of x xs ≤ y.
Proof.
  unfold min_of. revert x. induction xs as [| z xs IH]; intros x y Hy; simpl.
  - apply list_elem_of_singleton in Hy as ->. apply Qcle_refl.
  - destruct (qmin_le x z) as [Hx Hz].
    assert (Hm : foldl qmin (qmin x z) xs ≤ qmin x z) by (apply IH; by left).
    apply elem_of_cons in Hy as [-> | [-> | Hy]%elem_of_cons].
    + by apply (Qcle_trans _ (qmin x z)).
    + by apply (Qcle_trans _ (qmin x z)).
    + apply IH. by right.
Qed.

Lemma max_of_ge x xs : ∀ y, y ∈ x :: xs → y ≤ max_of x xs.
Proof.
  unfold max_of. revert x. induction xs as [| z xs IH]; intros x y Hy; simpl.
  - apply list_elem_of_singleton in Hy as ->. apply Qcle_refl.
  - destruct (qmax_ge x z) as [Hx Hz].
    assert (Hm : qmax x z ≤ foldl qmax (qmax x z) xs) by (apply IH; by left).
    apply elem_of_cons in Hy as [-> | [-> | Hy]%elem_of_cons].
    + by apply (Qcle_trans _ (qmax x z)).
    + by apply (Qcle_trans _ (qmax x z)).
    + apply IH. by right.
Qed.

(** The confidence range of a processed cluster brackets the confidence
    of every response of the round that the cluster names. *)
Theorem cluster_confidence_range raw expertResponses processed cluster response
    (Hprocessed : processClusters raw expertResponses = Some processed)
    (Hcluster : cluster ∈ processed)
    (Hresponse : response ∈ expertResponses)
    (Hnamed : JStr (agent_id response) ∈ expert_ids cluster) :
  (confidence_range cluster).1 ≤ confidence response ∧
  confidence response ≤ (confidence_range cluster).2.
Proof.
  destruct (OrchestratorFacts.processClusters_elem _ _ _ _ Hprocessed Hcluster)
    as (rc & _ & Hp).
  apply processCluster_pushed_inv in Hp
    as (_ & first & others & Hf & -> & _). simpl.
  assert (Hin : confidence response ∈ confidence first :: (confidence <$> others)).
  { change (confidence response ∈ confidence <$> (first :: others)).
    apply list_elem_of_fmap. exists response. split; [done |].
    rewrite <- Hf. apply list_elem_of_In, filter_In.
    split; [by apply list_elem_of_In | by apply OrchestratorFacts.includes_elem_of]. }
  split; [by apply min_of_le | by apply max_of_ge].
Qed.

Lemma cluster_confidence_range_witness :
  let a := Sample.response "a" "A position of some length" 7 [] in
  let b := Sample.response "b" "Another position of some length" 9 [] in
  ∃ cluster,
    processClusters [Sample.raw_cluster "both" ["a"; "b"]%string] [a; b]
      = Some [cluster] ∧
    (confidence_range cluster).1 ≤ confidence b ∧
    confidence b ≤ (confidence_range cluster).2.
Proof.
  eexists. split; [reflexivity |].
  eapply (cluster_confidence_range
            [Sample.raw_cluster "both" ["a"; "b"]%string]
            [Sample.response "a" "A position of some length" 7 [];
             Sample.response "b" "Another position of some length" 9 []]);
    [reflexivity | by left | | ].
  - right. by left.
  - right. by left.
Defined.

Lemma add_source_urls acc source :
  NoDup (url <$> acc) → NoDup (url <$> add_source acc source).
Proof.
  intros Hnd. unfold add_source.
  destruct (existsb _ acc) eqn:E; [done |].
  rewrite fmap_app. apply NoDup_app. split; [done |]. split.
  - intros u Hu Hin. apply list_elem_of_singleton in Hin. simpl in Hin. subst u.
    apply list_elem_of_fmap in Hu as (existing & Heq & Hex).
    assert (Habs : existsb (λ existing, bool_decide (url existing = url source)) acc
                   = true).
    { apply existsb_exists. exists existing.
      split; [by apply list_elem_of_In | by apply bool_decide_eq_true]. }
    congruence.
  - simpl. apply NoDup_singleton.
Qed.

Lemma fold_add_source_urls l acc :
  NoDup (url <$> acc) → NoDup (url <$> foldl add_source acc l).
Proof.
  revert acc. induction l as [| s l IH]; intros acc Hnd; simpl; [done |].
  apply IH. by apply add_source_urls.
Qed.

Lemma fold_add_source_origin l acc x :
  x ∈ foldl add_source acc l →
  x ∈ acc ∨
  ∃ s, s ∈ l ∧ url x = url s ∧ title x = title s ∧ date x = date s ∧
       JsString.truthy (relevance x) = true.
Proof.
  revert acc. induction l as [| s l IH]; intros acc Hx; simpl in Hx; [by left |].
  destruct (IH _ Hx) as [Hacc | (s' & Hs' & Hrest)].
  - unfold add_source in Hacc. destruct (existsb _ acc); [by left |].
    apply elem_of_app in Hacc as [Hacc | ->%list_elem_of_singleton]; [by left |].
    right. exists s. split; [by left |]. simpl. repeat split.
    unfold JsString.or_else. by destruct (JsString.truthy (relevance s)) eqn:E.
  - right. exists s'. split; [by right | done].
Qed.

(** The supporting sources of a processed cluster number at most ten and
    no two of them have the same URL; each one repeats the title, URL and
    date of a source of a response that the cluster names, and carries a
    relevance text. *)
Theorem cluster_supporting_sources raw expertResponses processed cluster
    (Hprocessed : processClusters raw expertResponses = Some processed)
    (Hcluster : cluster ∈ processed) :
  (length (supporting_sources cluster) ≤ 10)%nat ∧
  NoDup (url <$> supporting_sources cluster) ∧
  ∀ x, x ∈ supporting_sources cluster →
       JsString.truthy (relevance x) = true ∧
       ∃ response s,
         response ∈ expertResponses ∧
         JStr (agent_id response) ∈ expert_ids cluster ∧
         s ∈ sources response ∧
         url x = url s ∧ title x = title s ∧ date x = date s.
Proof.
  destruct (OrchestratorFacts.processClusters_elem _ _ _ _ Hprocessed Hcluster)
    as (rc & _ & Hp).
  apply processCluster_pushed_inv in Hp
    as (_ & first & others & Hf & _ & ->).
  split; [rewrite length_take; lia |]. split.
  - rewrite fmap_take. eapply sublist_NoDup; [| apply sublist_take].
    apply fold_add_source_urls. constructor.
  - intros x Hx. apply subseteq_take in Hx.
    apply fold_add_source_origin in Hx as [Hx | (s & Hs & Hu & Ht & Hd & Hr)];
      [by apply elem_of_nil in Hx |].
    split; [done |].
    apply list_elem_of_bind in Hs as (response & Hs & Hresp).
    exists response, s.
    rewrite <- Hf in Hresp. apply list_elem_of_In, filter_In in Hresp as [Hin Hinc].
    repeat split; try done; [by apply list_elem_of_In |].
    by apply OrchestratorFacts.includes_elem_of.
Qed.

Lemma cluster_supporting_sources_witness :
  let a := Sample.response "a" "A position of some length" 7
             ["https://x.org/1"; "https://x.org/2"]%string in
  let b := Sample.response "b" "Another position of some length" 9
             ["https://x.org/2"; "https://x.org/3"]%string in
  ∃ cluster,
    processClusters [Sample.raw_cluster "both" ["a"; "b"]%string] [a; b]
      = Some [cluster] ∧
    url <$> supporting_sources cluster
      = ["https://x.org/1"; "https://x.org/2"; "https://x.org/3"]%string ∧
    NoDup (url <$> supporting_sources cluster).
Proof.
  eexists. split; [reflexivity |]. split; [reflexivity |].
  eapply (cluster_supporting_sources
            [Sample.raw_cluster "both" ["a"; "b"]%string]
            [Sample.response "a" "A position of some length" 7
               ["https://x.org/1"; "https://x.org/2"]%string;
             Sample.response "b" "Another position of some length" 9
               ["https://x.org/2"; "https://x.org/3"]%string]);
    [reflexivity | by left].
Defined.

(** The processed clusters follow the order of the raw ones: their
    themes are the themes of the raw clusters with some left out. *)
Theorem processClusters_order raw expertResponses processed
    (Hprocessed : processClusters raw expertResponses = Some processed) :
  (theme <$> processed) `sublist_of` omap (λ rawCluster, prop rawCluster "theme") raw ∧
  (length processed ≤ length raw)%nat.
Proof.
  revert processed Hprocessed.
  induction raw as [| rawCluster raw IH]; intros processed H; simpl in H.
  - injection H as <-. split; [constructor | done].
  - destruct (processCluster rawCluster expertResponses) as [| c |] eqn:Hstep;
      [| | done].
    + destruct (IH _ H) as [Hsub Hlen]. split; [| simpl; lia].
      simpl. destruct (prop rawCluster "theme"); [by apply sublist_cons | done].
    + destruct (processClusters raw expertResponses) as [rest |]; [| done].
      injection H as <-. destruct (IH _ eq_refl) as [Hsub Hlen].
      apply processCluster_pushed_inv in Hstep as [Htheme _].
      split; [| simpl; lia].
      simpl. rewrite Htheme. by apply sublist_skip.
Qed.

Lemma processClusters_order_witness :
  [JStr "first"; JStr "last"]
    `sublist_of` [JStr "first"; JStr "unknown"; JStr "last"] ∧
  (2 ≤ 3)%nat.
Proof.
  refine (processClusters_order
            [Sample.raw_cluster "first" ["a"%string];
             Sample.raw_cluster "unknown" ["ghost"%string];
             Sample.raw_cluster "last" ["a"%string]]
            [Sample.response "a" "A position of some length" 7 []] _ eq_refl).
Defined.

(** *** The average confidence *)




(** *** Dominant clusters *)

















End ClusterFacts.

Module SearchFacts.

Import PerplexityTool CitationSanitize SearchResults.

(** *** The retry loop *)

(** Whatever the server does, [search] posts between one and three
    requests and has paused for 1 s before the second and for 2 s before
    the third; a result it returns is the answer to its last request. *)
Theorem search_with_effects {A} (post : nat → CaughtError + A) :
  (1 ≤ requests (search_with post).2 ≤ 3) ∧
  pauses (search_with post).2
    = take (requests (search_with post).2 - 1) [1000; 2000]%Z ∧
  ∀ data, (search_with post).1 = Returned data →
          post (requests (search_with post).2 - 1) = inr data.
Proof.
  unfold search_with, maxRetries. simpl.
  destruct (post 0) as [e0 | d0] eqn:H0; simpl;
    [| split; [lia | split; [done | by intros ? [= <-]]]].
  destruct (isTimeout e0 || is5xx e0)%bool; simpl;
    [| split; [lia | split; [done | done]]].
  destruct (post 1) as [e1 | d1] eqn:H1; simpl;
    [| split; [lia | split; [done | by intros ? [= <-]]]].
  destruct (isTimeout e1 || is5xx e1)%bool; simpl;
    [| split; [lia | split; [done | done]]].
  destruct (post 2) as [e2 | d2] eqn:H2; simpl;
    [| split; [lia | split; [done | by intros ? [= <-]]]].
  rewrite andb_false_r. simpl. split; [lia | split; [done | done]].
Qed.

(** When the first three requests all time out, [search] gives up after
    the third, having paused for 1 s and 2 s, and reports the last
    error. *)
Theorem search_timeouts {A} (transport : nat → CaughtError + A) e0 e1 e2
    (H0 : transport 0 = inl e0) (H1 : transport 1 = inl e1)
    (H2 : transport 2 = inl e2)
    (T0 : isTimeout (interceptor e0) = true)
    (T1 : isTimeout (interceptor e1) = true) :
  search transport =
    (Thrown ("Perplexity API failed: " +:+ detail (interceptor e2)),
     {| requests := 3; pauses := [1000; 2000]%Z |}).
Proof.
  unfold search, search_with, client_post, maxRetries. simpl.
  rewrite H0. rewrite T0. simpl. rewrite H1. rewrite T1. simpl. rewrite H2.
  by rewrite andb_false_r.
Qed.

Lemma search_timeouts_witness :
  search Sample.never_in_time =
    (Thrown "Perplexity API failed: Perplexity API failed: timeout of 30000ms exceeded",
     {| requests := 3; pauses := [1000; 2000]%Z |}).
Proof.
  apply (search_timeouts Sample.never_in_time
           _ _ _ eq_refl eq_refl eq_refl eq_refl eq_refl).
Defined.

(** *** Citations *)

Lemma sanitizeCitation_faults index citation :
  sanitizeCitation index citation = None ↔ citation = JNull.
Proof. destruct citation; simpl; split; done. Qed.

Lemma sanitize_from_faults index raw :
  sanitize_from index raw = None ↔ JNull ∈ raw.
Proof.
  revert index. induction raw as [| citation raw IH]; intros index; simpl.
  - split; [done | intros H; by apply elem_of_nil in H].
  - destruct (sanitizeCitation index citation) as [c |] eqn:Hc.
    + destruct (sanitize_from (S index) raw) eqn:Hrest; simpl.
      * split; [done |]. intros [<- | H]%elem_of_cons; [discriminate Hc |].
        apply (IH (S index)) in H. congruence.
      * split; [| done]. intros _. right. by apply (IH (S index)).
    + apply sanitizeCitation_faults in Hc as ->. split; [by left | done].
Qed.

(** [sanitizeCitations] throws exactly when the list holds a [null];
    strings, objects with missing or ill-typed properties, and any other
    value are turned into citations. *)
Theorem sanitizeCitations_faults raw :
  sanitizeCitations raw = None ↔ JNull ∈ default [] raw.
Proof. apply sanitize_from_faults. Qed.

Lemma sanitize_from_lookup index raw cs :
  sanitize_from index raw = Some cs →
  length cs = length raw ∧
  ∀ i citation, raw !! i = Some citation →
                cs !! i = sanitizeCitation (index + i) citation.
Proof.
  revert index cs. induction raw as [| x raw IH]; intros index cs H; simpl in H.
  - injection H as <-. split; [done | intros i c Hi; done].
  - destruct (sanitizeCitation index x) as [c |] eqn:Hc; [| done].
    destruct (sanitize_from (S index) raw) as [rest |] eqn:Hrest; [| done].
    injection H as <-. destruct (IH _ _ Hrest) as [Hlen Hlook].
    split; [simpl; lia |].
    intros [| i] citation Hi; simpl in *.
    + injection Hi as <-. by rewrite Nat.add_0_r.
    + rewrite (Hlook i citation Hi). f_equal. lia.
Qed.

(** The sanitized list has one citation per element, in order; the
    element at index [i] that is a bare URL string becomes the citation
    titled "Source i+1" with that URL. *)
Theorem sanitizeCitations_elements raw cs
    (Hok : sanitizeCitations raw = Some cs) :
  length cs = length (default [] raw) ∧
  (∀ i citation, default [] raw !! i = Some citation →
                 cs !! i = sanitizeCitation i citation) ∧
  (∀ i u, default [] raw !! i = Some (JStr u) →
          ∃ c, cs !! i = Some c ∧ url c = u ∧
               title c = ("Source " +:+ pretty (i + 1)%nat)%string).
Proof.
  destruct (sanitize_from_lookup 0 _ _ Hok) as [Hlen Hlook].
  split; [done |]. split; [exact Hlook |].
  intros i u Hi. rewrite (Hlook i _ Hi). simpl. by eexists.
Qed.

Lemma sanitizeCitations_elements_witness :
  ∃ c, url c = "https://x.org/b"%string ∧ title c = "Source 2"%string.
Proof.
  destruct (sanitizeCitations_elements
              (Some [JObj [("title"%string, JStr "First")];
                     JStr "https://x.org/b"])
              _ eq_refl) as (_ & _ & Hurl).
  destruct (Hurl 1%nat "https://x.org/b"%string eq_refl) as (c & _ & Hu & Ht).
  by exists c.
Defined.

(** A well-formed citation written as JSON and sanitized again is
    unchanged, whatever its place in the list. *)
Theorem sanitizeCitations_roundtrip (cs : list Citation) :
  sanitizeCitations (Some (to_json <$> cs)) = Some cs.
Proof.
  unfold sanitizeCitations. simpl. generalize 0%nat.
  induction cs as [| c cs IH]; intros index; simpl; [done |].
  rewrite IH. simpl. f_equal. f_equal.
  destruct c as [t u d r]. unfold to_json. simpl.
  destruct d, r; reflexivity.
Qed.

(** *** Search results *)

(** The search results are the upstream ones when there are any, and
    otherwise one per citation, with the citation's title and URL. *)
Theorem assemble_results data out
    (Hout : assemble data = Some out) :
  length (searchResults out)
    = (match default [] (data_search_results data) with
       | [] => length (citations out)
       | upstream => length upstream
       end) ∧
  (default [] (data_search_results data) = [] →
   ∀ i c, citations out !! i = Some c →
          ∃ r, searchResults out !! i = Some r ∧
               result_title r = title c ∧ result_url r = url c ∧
               relevance_score r = Q2Qc (7 # 10)) ∧
  (∀ r, default [] (data_search_results data) ≠ [] →
        r ∈ searchResults out →
        result_title r ≠ EmptyString ∧ summary r ≠ EmptyString ∧
        relevance_score r = Q2Qc (8 # 10)).
Proof.
  unfold assemble in Hout.
  destruct (sanitizeCitations (data_citations data)) as [cs |]; [| done].
  simpl in Hout. injection Hout as <-. simpl.
  destruct (default [] (data_search_results data)) as [| raw raws] eqn:Hraw.
  - simpl. split; [| split].
    + destruct cs; [done |]. by rewrite length_imap.
    + intros _ i c Hi. destruct cs as [| c0 cs']; [done |].
      rewrite list_lookup_imap, Hi. simpl. by eexists.
    + done.
  - split; [| split].
    + by rewrite fmap_cons, !length_cons, length_fmap.
    + done.
    + intros r _ Hr. rewrite fmap_cons in Hr.
      change (from_raw ?c raw :: (from_raw ?c <$> raws))
        with (from_raw c <$> (raw :: raws)) in Hr.
      apply list_elem_of_fmap in Hr as (x & -> & _).
      unfold from_raw. cbn [result_title summary relevance_score].
      generalize (substring0 200
                    (default EmptyString
                       (JsString.or_else (data_content data) None))).
      intros prefix. split; [| split; [| done]].
      * unfold JsString.or_else. destruct (raw_title x) as [[| ? ?] |]; done.
      * unfold JsString.or_else.
        destruct (raw_summary x) as [[| ? ?] |]; simpl; try done;
          by destruct prefix.
Qed.

Lemma assemble_results_witness :
  ∃ out,
    assemble {| data_content := Some "Text"%string;
                data_citations := Some [JStr "https://x.org/a";
                                        JStr "https://x.org/b"];
                data_search_results := None |} = Some out ∧
    length (searchResults out) = 2%nat.
Proof.
  eexists. split; [reflexivity |].
  exact (proj1 (assemble_results
                  {| data_content := Some "Text"%string;
                     data_citations := Some [JStr "https://x.org/a";
                                             JStr "https://x.org/b"];
                     data_search_results := None |} _ eq_refl)).
Defined.

End SearchFacts.

Module CompletionFacts.

Import OpenAIHelpers ErrorClasses.

(** *** The number of requests *)

Lemma runOnce_count create st :
  length (calls st) + 1 ≤ length (calls (runOnce create st).2) ≤
  length (calls st) + 2.
Proof.
  unfold runOnce.
  destruct (create (length (calls st)) (current st)) as [err | res];
    [cbn [snd calls]; rewrite List.length_app; simpl; lia |].
  destruct (noChoices res || noMessage res || noContent res)%bool;
    [| cbn [snd calls]; rewrite List.length_app; simpl; lia].
  destruct (truthy (get (current st) "model")
            && differs_from (get (current st) "model") fallback)%bool;
    cbn [snd calls]; rewrite List.length_app; simpl; lia.
Qed.

Lemma attempts_count create fuel st :
  length (calls (attempts create fuel st).2) ≤ length (calls st) + 2 * fuel ∧
  ((attempts create fuel st).1 = Exhausted →
   length (calls st) + fuel ≤ length (calls (attempts create fuel st).2)) ∧
  (0 < fuel → length (calls st) + 1 ≤ length (calls (attempts create fuel st).2)).
Proof.
  revert st. induction fuel as [| fuel IH]; intros st; simpl.
  - split; [lia |]. split; [lia | lia].
  - pose proof (runOnce_count create st) as Hrun.
    destruct (runOnce create st) as [[err | res] st1]; simpl in *.
    + destruct (handle err st1) as [st2 |] eqn:Hh; simpl.
      * destruct (IH st2) as (Hup & Hex & _).
        pose proof (OpenAIFacts.attempts_calls create fuel st2) as [k Hk].
        rewrite (OpenAIFacts.handle_calls _ _ _ Hh) in Hup, Hex, Hk.
        split; [lia |]. split; [intros E; specialize (Hex E); lia |].
        intros _. rewrite Hk, length_app. lia.
      * split; [lia |]. split; [done | lia].
    + split; [lia |]. split; [done | lia].
Qed.

(** A call of [safeChatCompletion] sends between one and ten requests
    to the service, and one that ends for lack of attempts has sent at
    least five. *)
Theorem safeChatCompletion_requests create (h : gmap loc object) req :
  1 ≤ length (calls (safeChatCompletion create h req).2) ≤ 10 ∧
  ((safeChatCompletion create h req).1 = Exhausted →
   5 ≤ length (calls (safeChatCompletion create h req).2)).
Proof.
  unfold safeChatCompletion.
  destruct (attempts_count create 5
              {| heap := <[fresh (dom h) := clone h req]> h;
                 r := fresh (dom h); calls := [] |}) as (Hup & Hex & Hlow).
  simpl in *. split; [split; [apply Hlow; lia | lia] |].
  intros E. specialize (Hex E). lia.
Qed.

(** *** The request as given *)

(** When the first answer has usable text it is returned at once: one
    request was sent, with the properties of the caller's object. *)
Theorem safeChatCompletion_first_answer create (h : gmap loc object) req res
    (Hfirst : create 0 (clone h req) = inr res)
    (Husable : usable res = true) :
  (safeChatCompletion create h req).1 = Returned res ∧
  calls (safeChatCompletion create h req).2 = [clone h req].
Proof.
  unfold safeChatCompletion. simpl. unfold runOnce, current. simpl.
  rewrite lookup_insert_eq. simpl. rewrite Hfirst.
  unfold usable in Husable. apply negb_true_iff in Husable.
  by rewrite Husable.
Qed.

Lemma safeChatCompletion_first_answer_witness :
  (safeChatCompletion (λ _ _, inr (Sample.answer "done"))
     (Sample.caller_heap "o3") (Some 1%positive)).1
  = Returned (Sample.answer "done").
Proof.
  apply (safeChatCompletion_first_answer (λ _ _, inr (Sample.answer "done"))
           (Sample.caller_heap "o3") (Some 1%positive) (Sample.answer "done"));
    reflexivity.
Defined.

(** *** Errors that are not recognised *)






(** *** What the requests sent have in common *)

Lemma agrees_refl o : agrees o o.
Proof. split; [done | by left]. Qed.

Lemma not_adjustable k :
  k ∉ adjustable →
  k ≠ "model"%string ∧ k ≠ "temperature"%string ∧ k ≠ "max_tokens"%string ∧
  k ≠ "max_completion_tokens"%string.
Proof.
  unfold adjustable. intros H.
  repeat (apply not_elem_of_cons in H as [? H]). done.
Qed.

Lemma agrees_set_model given o :
  agrees given o → agrees given (<["model" := VStr fallback]> o).
Proof.
  intros [Hk _]. split.
  - intros k Hn. destruct (not_adjustable k Hn) as (H1 & _).
    rewrite lookup_insert_ne by done. by apply Hk.
  - right. unfold get. by rewrite lookup_insert_eq.
Qed.

Lemma agrees_delete given o key :
  key ∈ adjustable → key ≠ "model"%string →
  agrees given o → agrees given (delete key o).
Proof.
  intros Hkey Hne [Hk Hm]. split.
  - intros k Hn. rewrite lookup_delete_ne by (intros ->; contradiction).
    by apply Hk.
  - unfold get in *. by rewrite lookup_delete_ne.
Qed.

Lemma agrees_insert given o key v :
  key ∈ adjustable → key ≠ "model"%string →
  agrees given o → agrees given (<[key := v]> o).
Proof.
  intros Hkey Hne [Hk Hm]. split.
  - intros k Hn. rewrite lookup_insert_ne by (intros ->; contradiction).
    by apply Hk.
  - unfold get in *. by rewrite lookup_insert_ne.
Qed.

Lemma current_rebind st o : current (rebind st o) = o.
Proof. unfold current, rebind. simpl. by rewrite lookup_insert_eq. Qed.

Lemma current_set_model st :
  current (set_model st) = <["model" := VStr fallback]> (current st).
Proof. unfold current at 1, set_model. simpl. by rewrite lookup_insert_eq. Qed.

Lemma runOnce_keeps create given st :
  keeps given st → keeps given (runOnce create st).2.
Proof.
  intros [Hcur Hcalls]. unfold runOnce.
  assert (Hsent : keeps given {| heap := heap st; r := r st;
                                 calls := calls st ++ [current st] |}).
  { split; [done |]. simpl. apply Forall_app. split; [done |]. by constructor. }
  destruct (create (length (calls st)) (current st)) as [err | res]; [done |].
  destruct (noChoices res || noMessage res || noContent res)%bool; [| done].
  destruct (truthy (get (current st) "model")
            && differs_from (get (current st) "model") fallback)%bool; [| done].
  cbn [snd]. split.
  - unfold current. simpl. rewrite lookup_insert_eq. simpl.
    by apply agrees_set_model.
  - simpl. apply Forall_app. split; [done |].
    constructor; [done |]. constructor; [| done]. by apply agrees_set_model.
Qed.

Lemma handle_keeps err given st st' :
  keeps given st → handle err st = Some st' → keeps given st'.
Proof.
  intros [Hcur Hcalls]. unfold handle.
  repeat match goal with
         | |- context [if ?b then _ else _] => destruct b
         end;
    intros H; try discriminate H; injection H as <-;
    (split; [| done]);
    rewrite ?current_rebind, ?current_set_model;
    repeat first
      [ apply agrees_set_model
      | apply agrees_insert; [unfold adjustable; set_solver | done |]
      | apply agrees_delete; [unfold adjustable; set_solver | done |] ];
    done.
Qed.

Lemma attempts_keeps create fuel given st :
  keeps given st → keeps given (attempts create fuel st).2.
Proof.
  revert st. induction fuel as [| fuel IH]; intros st Hk; [done |].
  simpl. pose proof (runOnce_keeps create given st Hk) as Hrun.
  destruct (runOnce create st) as [[err | res] st1]; simpl in *; [| done].
  destruct (handle err st1) as [st2 |] eqn:Hh; [| done].
  apply IH. by apply (handle_keeps err given st1).
Qed.

(** Every request that [safeChatCompletion] sends carries the caller's
    properties other than the model, the temperature and the two token
    limits (the message list among them), and asks for the caller's
    model or for the fallback model. *)
Theorem safeChatCompletion_requests_agree create (h : gmap loc object) req :
  Forall (agrees (clone h req)) (calls (safeChatCompletion create h req).2).
Proof.
  unfold safeChatCompletion.
  apply (attempts_keeps create 5 (clone h req)). split; [| constructor].
  unfold current. simpl. rewrite lookup_insert_eq. apply agrees_refl.
Qed.

(** *** Renaming the token limit *)

Lemma handle_wants_completion_tokens st :
  is_undefined (get (current st) "max_tokens") = false →
  handle wants_completion_tokens st
  = Some (rebind st (<["max_completion_tokens" := get (current st) "max_tokens"]>
                       (delete "max_tokens" (current st)))).
Proof. intros H. unfold handle. cbv zeta. rewrite H. reflexivity. Qed.

Lemma handle_wants_max_tokens st :
  is_undefined (get (current st) "max_tokens") = true →
  is_undefined (get (current st) "max_completion_tokens") = false →
  handle wants_max_tokens st
  = Some (rebind st (<["max_tokens" := get (current st) "max_completion_tokens"]>
                       (delete "max_completion_tokens" (current st)))).
Proof.
  intros H1 H2. unfold handle. cbv zeta. rewrite H1, H2. reflexivity.
Qed.

(** The two renamings of the token limit undo each other: a request
    with [max_tokens] that is moved to [max_completion_tokens] and back
    is the request it was, so a service that rejects both names drives
    the wrapper in a circle. *)
Theorem token_limit_roundtrip st v
    (Hlimit : current st !! "max_tokens" = Some v)
    (Hdefined : is_undefined v = false)
    (Hother : current st !! "max_completion_tokens" = None) :
  ∃ st1 st2,
    handle wants_completion_tokens st = Some st1 ∧
    current st1 !! "max_tokens" = None ∧
    current st1 !! "max_completion_tokens" = Some v ∧
    handle wants_max_tokens st1 = Some st2 ∧
    current st2 = current st.
Proof.
  assert (Hget : get (current st) "max_tokens" = v)
    by (unfold get; by rewrite Hlimit).
  eexists _, _. split.
  { apply handle_wants_completion_tokens. by rewrite Hget. }
  rewrite current_rebind, Hget.
  split; [by rewrite lookup_insert_ne, lookup_delete_eq |].
  split; [by rewrite lookup_insert_eq |].
  split.
  { apply handle_wants_max_tokens; rewrite current_rebind; unfold get.
    - by rewrite lookup_insert_ne, lookup_delete_eq.
    - by rewrite lookup_insert_eq. }
  rewrite !current_rebind. unfold get. rewrite lookup_insert_eq. simpl.
  apply map_eq. intros k.
  destruct (decide (k = "max_tokens"%string)) as [-> | Hk1].
  { by rewrite lookup_insert_eq. }
  rewrite lookup_insert_ne by done.
  destruct (decide (k = "max_completion_tokens"%string)) as [-> | Hk2].
  { by rewrite lookup_delete_eq. }
  by rewrite lookup_delete_ne, lookup_insert_ne, lookup_delete_ne.
Qed.

Lemma token_limit_roundtrip_witness :
  ∃ st1 st2,
    handle wants_completion_tokens
      {| heap := {[ 1%positive := Sample.request "o3" ]};
         r := 1%positive; calls := [] |} = Some st1 ∧
    handle wants_max_tokens st1 = Some st2 ∧
    current st2
    = current {| heap := {[ 1%positive := Sample.request "o3" ]};
                 r := 1%positive; calls := [] |}.
Proof.
  destruct (token_limit_roundtrip
              {| heap := {[ 1%positive := Sample.request "o3" ]};
                 r := 1%positive; calls := [] |}
              (VNum (Q2Qc 2000)))
    as (st1 & st2 & H1 & _ & _ & H2 & H3); [by vm_compute | done | by vm_compute |].
  exists st1, st2. split; [exact H1 |]. split; [exact H2 | exact H3].
Defined.

End CompletionFacts.

Module LoopFacts.

Import ConvergenceTracker TrackerMetrics DelphiAgent RoundLoop.

(** *** The rounds of a run *)











(** *** The configuration *)

(** [setMaxRounds] keeps a number of rounds from 1 to 5 and brings any
    other integer to the nearer of the two bounds. *)
Theorem setMaxRounds_clamps maxRounds :
  1 ≤ setMaxRounds maxRounds ≤ 5 ∧
  ((1 ≤ maxRounds ≤ 5)%Z → Z.of_nat (setMaxRounds maxRounds) = maxRounds) ∧
  ((maxRounds < 1)%Z → setMaxRounds maxRounds = 1) ∧
  ((5 < maxRounds)%Z → setMaxRounds maxRounds = 5).
Proof. unfold setMaxRounds. repeat split; lia. Qed.

(** A run on positive [expertCount] experts has one contrarian up to
    three experts and two beyond. *)
Theorem contrarianCount_cases expertCount
    (Hpositive : 0 < expertCount) :
  contrarianCount expertCount = if Nat.leb expertCount 3 then 1 else 2.
Proof.
  unfold contrarianCount.
  destruct (Nat.leb expertCount 3) eqn:Hle.
  - apply Nat.leb_le in Hle.
    destruct expertCount as [| [| [| [| n]]]]; [lia | done | done | done | lia].
  - apply Nat.leb_gt in Hle.
    assert (2 ≤ (expertCount + 2) / 3)
      by (apply Nat.div_le_lower_bound; lia).
    lia.
Qed.

Lemma contrarianCount_cases_witness : contrarianCount 5 = 2.
Proof. apply (contrarianCount_cases 5). lia. Defined.

End LoopFacts.

Module TextFacts.

Import TextTools.

Local Open Scope string_scope.

(** *** The JSON text of an answer *)

Lemma occurs_cons c a s :
  occurs c (String a s) = false ↔ a ≠ c ∧ occurs c s = false.
Proof.
  simpl. rewrite orb_false_iff, bool_decide_eq_false. tauto.
Qed.

Lemma from_first_app c before rest :
  occurs c before = false →
  from_first c (before +:+ String c rest) = Some (String c rest).
Proof.
  induction before as [| a before IH]; simpl.
  - intros _. by rewrite bool_decide_eq_true_2.
  - intros [Ha Hb]%orb_false_iff. rewrite Ha. by apply IH.
Qed.

Lemma from_first_none c s : occurs c s = false → from_first c s = None.
Proof.
  induction s as [| a s IH]; simpl; [done |].
  intros [Ha Hs]%orb_false_iff. rewrite Ha. by apply IH.
Qed.

Lemma from_first_rest c d s rest :
  from_first c s = Some rest → occurs d s = false → occurs d rest = false.
Proof.
  induction s as [| a s IH]; simpl; [done |].
  destruct (bool_decide (a = c)).
  - intros [= <-]. done.
  - intros Hrest [_ Hs]%orb_false_iff. by apply IH.
Qed.

Lemma upto_last_none c s : occurs c s = false → upto_last c s = None.
Proof.
  induction s as [| a s IH]; simpl; [done |].
  intros [Ha Hs]%orb_false_iff. by rewrite (IH Hs), Ha.
Qed.

Lemma upto_last_app c x after :
  occurs c after = false →
  upto_last c (x +:+ String c after) = Some (x +:+ String c "").
Proof.
  intros Hafter. induction x as [| a x IH]; simpl.
  - by rewrite (upto_last_none _ _ Hafter), bool_decide_eq_true_2.
  - by rewrite IH.
Qed.

(** Prose around the JSON is dropped: when the opening character does
    not occur before the text in brackets and the closing one does not
    occur after it, the text extracted is the bracketed text, whatever
    it holds. *)
Theorem extract_between_framed opening closing before body after
    (Hbefore : occurs opening before = false)
    (Hafter : occurs closing after = false) :
  extract_between opening closing
    (before +:+ String opening (body +:+ String closing after))
  = String opening (body +:+ String closing "").
Proof.
  unfold extract_between. rewrite from_first_app by done.
  change (String opening (body +:+ String closing after))
    with (String opening body +:+ String closing after).
  by rewrite upto_last_app.
Qed.

Lemma extract_between_framed_witness :
  json_object_text "Here it is: {x: {y: 1}} as asked" = "{x: {y: 1}}".
Proof.
  apply (extract_between_framed "{" "}" "Here it is: " "x: {y: 1}" " as asked");
    reflexivity.
Defined.

(** A text without the opening character, or without the closing one,
    is handed on as it is. *)
Theorem extract_between_unmatched opening closing text
    (Hmissing : occurs opening text = false ∨ occurs closing text = false) :
  extract_between opening closing text = text.
Proof.
  unfold extract_between.
  destruct (from_first opening text) as [rest |] eqn:Hrest; [| done].
  destruct Hmissing as [Hopening | Hclosing].
  - by rewrite from_first_none in Hrest.
  - by rewrite (upto_last_none _ _ (from_first_rest _ _ _ _ Hrest Hclosing)).
Qed.

Lemma extract_between_unmatched_witness :
  json_array_text "no list here]" = "no list here]".
Proof.
  apply (extract_between_unmatched "[" "]" "no list here]").
  left. reflexivity.
Defined.

(** *** The names of the files *)

Lemma length_slice0 n s : (String.length (slice0 n s) ≤ n)%nat.
Proof.
  revert s. induction n as [| n IH]; intros [| c s]; simpl; try lia.
  specialize (IH s). lia.
Qed.

Lemma occurs_slice0 c n s : occurs c (slice0 n s) = true → occurs c s = true.
Proof.
  revert s. induction n as [| n IH]; intros [| a s]; simpl; try done.
  intros [Ha | Hs]%orb_true_iff; apply orb_true_iff; [by left |].
  right. by apply IH.
Qed.

Lemma occurs_keep_chars c keep s :
  occurs c (keep_chars keep s) = true → keep c = true ∧ occurs c s = true.
Proof.
  induction s as [| a s IH]; simpl; [done |].
  destruct (keep a) eqn:Hkeep; simpl.
  - intros [Ha | Hs]%orb_true_iff.
    + apply bool_decide_eq_true in Ha as <-.
      split; [done |]. apply orb_true_iff. left. by apply bool_decide_eq_true.
    + destruct (IH Hs) as [Hk Ho]. split; [done |].
      apply orb_true_iff. by right.
  - intros Hs. destruct (IH Hs) as [Hk Ho]. split; [done |].
    apply orb_true_iff. by right.
Qed.

Lemma occurs_hyphenate c gap s :
  occurs c (hyphenate gap s) = true →
  c = "-"%char ∨ (occurs c s = true ∧ JsString.is_space c = false).
Proof.
  revert gap. induction s as [| a s IH]; intros gap; simpl; [done |].
  destruct (JsString.is_space a) eqn:Hspace.
  - destruct gap; simpl.
    + intros Hs. destruct (IH _ Hs) as [-> | [Ho Hc]]; [by left | right].
      split; [| done]. apply orb_true_iff. by right.
    + intros [Ha | Hs]%orb_true_iff.
      * apply bool_decide_eq_true in Ha as <-. by left.
      * destruct (IH _ Hs) as [-> | [Ho Hc]]; [by left | right].
        split; [| done]. apply orb_true_iff. by right.
  - simpl. intros [Ha | Hs]%orb_true_iff.
    + apply bool_decide_eq_true in Ha as <-. right.
      split; [| done]. apply orb_true_iff. left. by apply bool_decide_eq_true.
    + destruct (IH _ Hs) as [-> | [Ho Hc]]; [by left | right].
      split; [| done]. apply orb_true_iff. by right.
Qed.

Lemma sanitizedQuestion_occurs question c :
  occurs c (sanitizedQuestion question) = true →
  is_lower_alnum c = true ∨ c = "-"%char.
Proof.
  unfold sanitizedQuestion. intros Hc%occurs_slice0.
  apply occurs_hyphenate in Hc as [-> | [Hc Hspace]]; [by right |].
  apply occurs_keep_chars in Hc as [Hkeep _].
  rewrite Hspace, orb_false_r in Hkeep. by left.
Qed.

(** The part of a file name made from the question has at most 50
    characters, all of them lower-case letters, digits or hyphens,
    whatever the question is. *)
Theorem sanitizedQuestion_chars question :
  (String.length (sanitizedQuestion question) ≤ 50)%nat ∧
  ∀ c, occurs c (sanitizedQuestion question) = true →
       is_lower_alnum c = true ∨ c = "-"%char.
Proof.
  split; [apply length_slice0 |].
  intros c. apply sanitizedQuestion_occurs.
Qed.

Lemma includes_unfold s sub :
  JsString.includes s sub
  = (String.prefix sub s
     || match s with
        | EmptyString => false
        | String _ s' => JsString.includes s' sub
        end)%bool.
Proof. by destruct s. Qed.

Lemma prefix_slice0 sub : ∀ n s,
  String.prefix sub (slice0 n s) = true → String.prefix sub s = true.
Proof.
  induction sub as [| a sub IH]; intros n s; [by destruct s |].
  destruct n as [| n], s as [| c s]; simpl; try done.
  destruct (ascii_dec a c); [apply IH | done].
Qed.

Lemma includes_slice0 sub : ∀ n s,
  JsString.includes (slice0 n s) sub = true → JsString.includes s sub = true.
Proof.
  intros n s. revert n. induction s as [| c s IH]; intros n.
  - by destruct n.
  - destruct n as [| n].
    + rewrite (includes_unfold (String c s)). simpl slice0.
      rewrite (includes_unfold "").
      intros [Hp | Hf]%orb_true_iff; [| done].
      apply orb_true_iff. left. by destruct sub.
    + simpl slice0.
      rewrite (includes_unfold (String c (slice0 n s))),
              (includes_unfold (String c s)).
      intros [Hp | Hi]%orb_true_iff; apply orb_true_iff.
      * left. by apply (prefix_slice0 sub (S n) (String c s)).
      * right. by apply (IH n).
Qed.

Lemma hyphenate_single s : ∀ gap,
  occurs "-" s = false →
  JsString.includes (hyphenate gap s) "--" = false ∧
  (gap = true → String.prefix "-" (hyphenate gap s) = false).
Proof.
  induction s as [| c s IH]; intros gap Hs; [done |].
  apply occurs_cons in Hs as [Hc Hs]. simpl hyphenate.
  destruct (JsString.is_space c).
  - destruct gap; [by apply IH |].
    destruct (IH true Hs) as [Hi Hp]. split; [| done].
    rewrite includes_unfold. apply orb_false_iff. split; [| done].
    simpl. by apply Hp.
  - destruct (IH false Hs) as [Hi _]. split.
    + rewrite includes_unfold. apply orb_false_iff. split; [| done].
      cbn [String.prefix]. by destruct (ascii_dec "-" c) as [<- | _].
    + intros _. cbn [String.prefix]. by destruct (ascii_dec "-" c) as [<- | _].
Qed.

(** Hyphens never come in pairs in that part of the name: a hyphen of
    the question is dropped, and a run of white space gives one hyphen. *)
Theorem sanitizedQuestion_hyphens question :
  JsString.includes (sanitizedQuestion question) "--" = false.
Proof.
  unfold sanitizedQuestion.
  destruct (JsString.includes (slice0 50 _) "--") eqn:Hi; [| done].
  apply includes_slice0 in Hi.
  match type of Hi with
  | JsString.includes (hyphenate false ?kept) _ = _ =>
      assert (Hkept : occurs "-" kept = false)
  end.
  { match goal with |- ?o = false => destruct o eqn:Ho end; [| done].
    by apply occurs_keep_chars in Ho as [Hkeep _]. }
  destruct (hyphenate_single _ false Hkept) as [Hnone _]. congruence.
Qed.

Lemma append_cons x a b : String x a +:+ b = String x (a +:+ b).
Proof. reflexivity. Qed.

Lemma append_assoc a b c : (a +:+ b) +:+ c = a +:+ b +:+ c.
Proof.
  induction a as [| x a IH]; [done |]. rewrite !append_cons. by f_equal.
Qed.

Lemma occurs_app c s t : occurs c (s +:+ t) = (occurs c s || occurs c t)%bool.
Proof.
  induction s as [| a s IH]; [done |].
  rewrite append_cons. simpl. rewrite <- orb_assoc. by f_equal.
Qed.

Lemma occurs_map_chars d f s :
  (∀ c, f c ≠ d) → occurs d (map_chars f s) = false.
Proof.
  intros Hf. induction s as [| a s IH]; simpl; [done |].
  rewrite IH, orb_false_r. by apply bool_decide_eq_false.
Qed.

Lemma timestamp_dots iso : occurs "." (timestamp iso) = false.
Proof.
  apply occurs_map_chars. intros c.
  destruct (bool_decide (c = ":"%char) || bool_decide (c = "."%char))%bool
    eqn:Hc; [done |].
  apply orb_false_iff in Hc as [_ Hc]. by apply bool_decide_eq_false in Hc.
Qed.

Lemma replace_first_suffix s :
  occurs "." s = false →
  replace_first ".md" ".json" (s +:+ ".md") = s +:+ ".json".
Proof.
  induction s as [| c s IH]; [done |].
  intros [Hc Hs]%occurs_cons.
  change (String c s +:+ ".md") with (String c (s +:+ ".md")).
  cbn [replace_first String.prefix].
  destruct (ascii_dec "." c) as [<- | _]; [done |].
  simpl. by rewrite IH.
Qed.

(** The data file of a report is written beside the report under the
    same name, with the ending [.json] for [.md]: the one [.md] that
    [replace] finds in the path is its ending, whatever the question
    and the time. *)
Theorem json_path_name iso question :
  json_path iso question
  = "output/delphi-report-" +:+ timestamp iso +:+ "-"
    +:+ sanitizedQuestion question +:+ ".json".
Proof.
  unfold json_path, report_path, getReportFilename.
  set (ts := timestamp iso). set (sq := sanitizedQuestion question).
  assert (Hdots : occurs "." ("output/delphi-report-" +:+ ts +:+ "-" +:+ sq)
                  = false).
  { rewrite !occurs_app. unfold ts. rewrite timestamp_dots. simpl.
    destruct (occurs "." sq) eqn:Hsq; [| done].
    by apply sanitizedQuestion_occurs in Hsq as [Hsq | Hsq]. }
  apply replace_first_suffix in Hdots.
  rewrite !append_assoc in Hdots. exact Hdots.
Qed.

End TextFacts.
